(** * Tribonacci / GZR steganography: a shallow embedding of the codec
      (tribonacci.py) and of the pixel-LSB channel (encoder.py, decoder.py).

    Python values are modelled as follows.
    - [int] is [Z] (unbounded).
    - [str] is a list of code points ([list Z]); a character is its code
      point, so [ord] is the identity and [chr] checks the Unicode range.
    - [list] is [list]; indexing follows Python (negative indices count from
      the end, an index out of range raises [IndexError]).
    - A [while] loop is a fuelled fixpoint; exhaustion is the outcome
      [OutOfFuel], and the fuel used by the top-level function is proved
      sufficient.
    - Exceptions are the [Raise] outcome.
    - A numpy array is a record (shape, row-major data) living in a heap that
      maps object identities to arrays, so that copies and in-place writes are
      distinguishable. *)

From Stdlib Require Import ZArith List Ascii Lia Bool.
From stdpp Require Import base numbers option list gmap.
Import ListNotations.

Open Scope Z_scope.

(** * Python values: outcomes, strings and lists *)

Inductive exn : Type :=
| ValueError
| IndexError
| OverflowError
| Dangling.

Inductive outcome (A : Type) : Type :=
| Ok (a : A)
| Raise (e : exn)
| OutOfFuel.

Arguments Ok {A} a.
Arguments Raise {A} e.
Arguments OutOfFuel {A}.

Definition obind {A B} (m : outcome A) (k : A -> outcome B) : outcome B :=
  match m with
  | Ok a => k a
  | Raise e => Raise e
  | OutOfFuel => OutOfFuel
  end.

Notation "'let*' x ':=' m 'in' k" := (obind m (fun x => k))
  (at level 10, x name, m at level 100, k at level 200).

Abbreviation str := (list Z) (only parsing).

(** The code point of an ASCII character literal. *)
Definition ch (a : ascii) : Z := Z.of_N (N_of_ascii a).

Definition chr (v : Z) : outcome Z :=
  if (0 <=? v) && (v <? 1114112) then Ok v else Raise ValueError.

(** [l[k]] for a Python list, [k] possibly negative. *)
Definition getitem {A} (l : list A) (k : Z) : outcome A :=
  let len := Z.of_nat (length l) in
  let k' := if k <? 0 then k + len else k in
  if (0 <=? k') && (k' <? len)
  then match l !! Z.to_nat k' with
       | Some x => Ok x
       | None => Raise IndexError
       end
  else Raise IndexError.

(** [s.lstrip(chars)]: drop the longest prefix made of characters of
    [chars]. *)
Fixpoint lstrip (chars : str) (s : str) : str :=
  match s with
  | [] => []
  | c :: s' => if existsb (Z.eqb c) chars then lstrip chars s' else s
  end.

(** [s.zfill(width)]: zeros are inserted on the left, after a leading sign
    character if there is one. *)
Definition zfill (width : nat) (s : str) : str :=
  if (width <=? length s)%nat then s
  else
    let fill := repeat (ch "0") (width - length s) in
    match s with
    | c :: s' =>
        if (c =? ch "+") || (c =? ch "-") then c :: fill ++ s' else fill ++ s
    | [] => fill
    end.

Fixpoint startswith (sub s : str) : bool :=
  match sub, s with
  | [], _ => true
  | _ :: _, [] => false
  | a :: sub', b :: s' => (a =? b) && startswith sub' s'
  end.

(** Scan for [str.count]: [skip] is the number of characters still covered
    by the occurrence found last (occurrences do not overlap). *)
Fixpoint count_from (sub s : str) (skip : nat) : Z :=
  match s with
  | [] => 0
  | _ :: s' =>
      match skip with
      | S k => count_from sub s' k
      | O =>
          if startswith sub s
          then 1 + count_from sub s' (length sub - 1)
          else count_from sub s' 0
      end
  end.

(** [s.count(sub)]; an empty [sub] matches between all characters. *)
Definition str_count (s sub : str) : Z :=
  match sub with
  | [] => Z.of_nat (length s) + 1
  | _ => count_from sub s 0
  end.

(** [s[a:b]] for [0 <= a <= b]. *)
Definition slice {A} (s : list A) (a b : nat) : list A :=
  take (b - a) (drop a s).

(** [range(0, stop, step)] for a positive [step]. *)
Definition range_step (stop step : nat) : list nat :=
  map (fun k => (k * step)%nat) (seq 0 ((stop + step - 1) / step)).

(** * tribonacci.py *)

(** The [while] loop of [generate_tribonacci]. *)
Fixpoint tribonacci_loop (fuel : nat) (max_value : Z) (tribonacci : list Z)
  : outcome (list Z) :=
  match fuel with
  | O => OutOfFuel
  | S fuel' =>
      let* last := getitem tribonacci (-1) in
      if last <? max_value then
        let* t1 := getitem tribonacci (-1) in
        let* t2 := getitem tribonacci (-2) in
        let* t3 := getitem tribonacci (-3) in
        let next_term := t1 + t2 + t3 in
        if next_term >? max_value then Ok tribonacci
        else tribonacci_loop fuel' max_value (tribonacci ++ [next_term])
      else Ok tribonacci
  end.

Definition generate_tribonacci_fuel (fuel : nat) (max_value : Z)
  : outcome (list Z) :=
  if max_value <? 1 then Ok []
  else tribonacci_loop fuel max_value [1; 2; 4].

(** The terms grow strictly, so the loop runs fewer than [max_value]
    times; see [generate_tribonacci_fuel_enough]. *)
Definition generate_tribonacci (max_value : Z) : list Z :=
  match generate_tribonacci_fuel (S (Z.to_nat max_value)) max_value with
  | Ok l => l
  | _ => []
  end.

(** One step of the greedy loop of [decimal_to_gzr]: the state is
    [(bits, remaining)]. *)
Definition greedy_step (st : list str * Z) (t : Z) : list str * Z :=
  let '(bits, remaining) := st in
  if t <=? remaining then (bits ++ [[ch "1"]], remaining - t)
  else (bits ++ [[ch "0"]], remaining).

Definition decimal_to_gzr (n : Z) (tribonacci_seq : option (list Z)) : str :=
  if n <=? 0 then [ch "0"]
  else
    let tribonacci_seq :=
      match tribonacci_seq with
      | None => generate_tribonacci n
      | Some s => s
      end in
    let '(bits, _) := fold_left greedy_step (rev tribonacci_seq) ([], n) in
    let result := lstrip [ch "0"] (concat (rev bits)) in
    match result with
    | [] => [ch "0"]
    | _ => result
    end.

(** The loop body of [gzr_to_decimal] over [enumerate(gzr_bits)]. *)
Definition weight_step (tribonacci_seq : list Z) (result : Z) (ib : nat * Z)
  : Z :=
  let '(i, bit) := ib in
  if (bit =? ch "1") && (i <? length tribonacci_seq)%nat
  then result + nth i tribonacci_seq 0
  else result.

Definition enumerate {A} (l : list A) : list (nat * A) :=
  combine (seq 0 (length l)) l.

Definition gzr_to_decimal (gzr_bits : str) (tribonacci_seq : option (list Z))
  : Z :=
  match gzr_bits with
  | [] => 0
  | _ =>
      if decide (gzr_bits = [ch "0"]) then 0
      else
        let bit_length := Z.of_nat (length gzr_bits) in
        let tribonacci_seq :=
          match tribonacci_seq with
          | None => generate_tribonacci (2 ^ bit_length)
          | Some s => s
          end in
        fold_left (weight_step tribonacci_seq) (enumerate gzr_bits) 0
  end.

(** [ord] of a character of the model. *)
Definition ord (c : Z) : Z := c.

Definition text_to_gzr (text : str) : str :=
  let max_ascii := 255 in
  let tribonacci_seq := generate_tribonacci max_ascii in
  let gzr_bits :=
    fold_left
      (fun (gzr_bits : list str) (char : Z) =>
         let ascii_val := ord char in
         let gzr := decimal_to_gzr ascii_val (Some tribonacci_seq) in
         let gzr := zfill 9 gzr in
         gzr_bits ++ [gzr])
      text [] in
  concat gzr_bits.

(** A [for] loop whose body may raise. *)
Fixpoint for_each {A St} (xs : list A) (body : St -> A -> outcome St)
  (s : St) : outcome St :=
  match xs with
  | [] => Ok s
  | x :: xs' => let* s' := body s x in for_each xs' body s'
  end.

(** The loop body of [gzr_to_text] at chunk start [i]; [chars], a list of
    one-character strings in the source, is kept joined. *)
Definition gzr_to_text_body (gzr_bits : str) (tribonacci_seq : list Z)
  (chunk_size : nat) (chars : str) (i : nat) : outcome str :=
  let chunk := slice gzr_bits i (i + chunk_size) in
  if (length chunk =? chunk_size)%nat then
    let ascii_val := gzr_to_decimal chunk (Some tribonacci_seq) in
    if ascii_val >? 0 then
      let* c := chr ascii_val in Ok (chars ++ [c])
    else Ok chars
  else Ok chars.

Definition gzr_to_text (gzr_bits : str) : outcome str :=
  let max_ascii := 255 in
  let tribonacci_seq := generate_tribonacci max_ascii in
  let chunk_size := 9%nat in
  for_each (range_step (length gzr_bits) chunk_size)
    (gzr_to_text_body gzr_bits tribonacci_seq chunk_size) [].

Definition verify_no_111_pattern (gzr_bits : str) : bool * Z :=
  let count_111 := str_count gzr_bits [ch "1"; ch "1"; ch "1"] in
  let is_valid := count_111 =? 0 in
  (is_valid, count_111).

(** * Arrays, objects and the heap *)

(** A 2-D [numpy] array of [uint8]: its shape [(height, width)] and its
    pixels in row-major order. *)
Record ndarray : Type := mk_ndarray {
  shape : nat * nat;
  data : list Z
}.

(** The state of a method call: the receiver's attributes and the arrays
    that exist, by identity. *)
Record world (O : Type) : Type := mk_world {
  self : O;
  arrays : gmap positive ndarray
}.

Arguments mk_world {O} self arrays.
Arguments self {O} w.
Arguments arrays {O} w.

Definition M (O A : Type) : Type := world O -> outcome A * world O.

Definition mret {O A} (a : A) : M O A := fun w => (Ok a, w).

Definition mbind {O A B} (m : M O A) (k : A -> M O B) : M O B :=
  fun w =>
    match m w with
    | (Ok a, w') => k a w'
    | (Raise e, w') => (Raise e, w')
    | (OutOfFuel, w') => (OutOfFuel, w')
    end.

Definition raise {O A} (e : exn) : M O A := fun w => (Raise e, w).

Definition lift {O A} (o : outcome A) : M O A := fun w => (o, w).

Definition get_self {O} : M O O := fun w => (Ok (self w), w).

Definition set_self {O} (o : O) : M O unit :=
  fun w => (Ok tt, mk_world o (arrays w)).

Notation "'let!' x ':=' m 'in' k" := (mbind m (fun x => k))
  (at level 10, x name, m at level 100, k at level 200).
Notation "'let!' ' pat ':=' m 'in' k" :=
  (mbind m (fun x => match x with pat => k end))
  (at level 10, pat pattern, m at level 100, k at level 200).

(** A [for] loop over [xs] whose body can leave the function with
    [return]: the body yields [inl] of the next loop state, or [inr] of the
    returned value. *)
Fixpoint for_range_ret {O St R} (xs : list nat)
  (body : nat -> St -> M O (St + R)) (s : St) : M O (St + R) :=
  match xs with
  | [] => mret (inl s)
  | x :: xs' =>
      let! r := body x s in
      match r with
      | inl s' => for_range_ret xs' body s'
      | inr v => mret (inr v)
      end
  end.

(** [a.shape]. A reference to no array cannot arise in Python; the model
    gives it the outcome [Raise Dangling]. *)
Definition nd_shape {O} (l : positive) : M O (nat * nat) :=
  fun w =>
    match arrays w !! l with
    | Some a => (Ok (shape a), w)
    | None => (Raise Dangling, w)
    end.

(** [a.copy()]: a new array object with the same contents. *)
Definition nd_copy {O} (l : positive) : M O positive :=
  fun w =>
    match arrays w !! l with
    | Some a =>
        let l' := fresh (dom (arrays w)) in
        (Ok l', mk_world (self w) (<[l' := a]> (arrays w)))
    | None => (Raise Dangling, w)
    end.

(** [int(a[i, j])] for indices that come from [range]. *)
Definition nd_getitem {O} (l : positive) (i j : nat) : M O Z :=
  fun w =>
    match arrays w !! l with
    | Some a =>
        let '(height, width) := shape a in
        if (i <? height)%nat && (j <? width)%nat then
          match data a !! (i * width + j)%nat with
          | Some p => (Ok p, w)
          | None => (Raise IndexError, w)
          end
        else (Raise IndexError, w)
    | None => (Raise Dangling, w)
    end.

(** [a[i, j] = v], in place. A Python [int] outside the range of [uint8]
    is refused (NumPy 2). *)
Definition nd_setitem {O} (l : positive) (i j : nat) (v : Z) : M O unit :=
  fun w =>
    match arrays w !! l with
    | Some a =>
        let '(height, width) := shape a in
        if (i <? height)%nat && (j <? width)%nat then
          if (0 <=? v) && (v <=? 255) then
            (Ok tt,
             mk_world (self w)
               (<[l := mk_ndarray (shape a)
                         (<[(i * width + j)%nat := v]> (data a))]>
                  (arrays w)))
          else (Raise OverflowError, w)
        else (Raise IndexError, w)
    | None => (Raise Dangling, w)
    end.

(** [int(c)] for a one-character string: an ASCII decimal digit, else
    [ValueError]. *)
Definition int_of_char (c : Z) : outcome Z :=
  if (ch "0" <=? c) && (c <=? ch "9") then Ok (c - ch "0")
  else Raise ValueError.

(** [str(lsb)] for [lsb = pixel_value & 1], which is 0 or 1. *)
Definition str_of_lsb (lsb : Z) : str :=
  if lsb =? 0 then [ch "0"] else [ch "1"].

Fixpoint bin_digits (p : positive) : str :=
  match p with
  | xH => [ch "1"]
  | xO p' => bin_digits p' ++ [ch "0"]
  | xI p' => bin_digits p' ++ [ch "1"]
  end.

(** [format(n, '032b')]: binary digits, zero-padded to width 32 after the
    sign. *)
Definition format_032b (n : Z) : str :=
  match n with
  | Z0 => repeat (ch "0") 32
  | Zpos p => repeat (ch "0") (32 - length (bin_digits p)) ++ bin_digits p
  | Zneg p =>
      ch "-" :: repeat (ch "0") (31 - length (bin_digits p)) ++ bin_digits p
  end.

Definition len {A} (l : list A) : Z := Z.of_nat (length l).

(** * encoder.py *)

Record GZREncoder : Type := mk_GZREncoder {
  image : positive;
  stego_image : option positive;
  encoded_bits : option str
}.

(** The integer entries of the statistics dictionary; the bit density (a
    float) and the formatted capacity string are left out. *)
Record stats : Type := mk_stats {
  message_length : Z;
  stats_encoded_bits : Z;
  valid_gzr : bool;
  pattern_111_count : Z
}.

Definition get_capacity : M GZREncoder Z :=
  let! self := get_self in
  let! '(height, width) := nd_shape (image self) in
  let capacity_bits := Z.of_nat height * Z.of_nat width in
  let capacity_bytes := capacity_bits / 8 in
  mret capacity_bytes.

(** The body of the inner loop of [_embed_bits], at pixel [(i, j)]; the
    loop state is [(bit_index, embedded_count)]. *)
Definition embed_pixel (stego : positive) (bits : str) (i j : nat)
  (st : Z * Z) : M GZREncoder (Z * Z + positive) :=
  let '(bit_index, embedded_count) := st in
  if bit_index >=? len bits then mret (inr stego)
  else
    let! pixel_value := nd_getitem stego i j in
    let! c := lift (getitem bits bit_index) in
    let! bit_to_embed := lift (int_of_char c) in
    let new_pixel := Z.lor (Z.land pixel_value 254) bit_to_embed in
    let! _ := nd_setitem stego i j new_pixel in
    mret (inl (bit_index + 1, embedded_count + 1)).

Definition _embed_bits (bits : str) : M GZREncoder positive :=
  let! self := get_self in
  let! stego := nd_copy (image self) in
  let! '(height, width) := nd_shape stego in
  let! r := for_range_ret (seq 0 height)
              (fun i st =>
                 for_range_ret (seq 0 width) (embed_pixel stego bits i) st)
              (0, 0) in
  match r with
  | inl _ => mret stego
  | inr v => mret v
  end.

(** Writing the image file ([cv2.imwrite]) and printing are outside the
    model. The capacity string of the statistics divides by [capacity];
    that line is reached only with [1 <= required <= capacity]. *)
Definition encode_message (message : str) : M GZREncoder stats :=
  let encoded := text_to_gzr message in
  let! self := get_self in
  let! _ := set_self (mk_GZREncoder (image self) (stego_image self) (Some encoded)) in
  let! capacity := get_capacity in
  let required := len encoded / 8 + 1 in
  if required >? capacity then raise ValueError
  else
    let '(valid, count_111) := verify_no_111_pattern encoded in
    let length_bits := format_032b (len encoded) in
    let full_bits := length_bits ++ encoded in
    let! stego := _embed_bits full_bits in
    let! self := get_self in
    let! _ := set_self (mk_GZREncoder (image self) (Some stego) (encoded_bits self)) in
    mret (mk_stats (len message) (len encoded) valid count_111).

(** [format(n, '08b')]: binary digits, zero-padded to width 8 after the
    sign. *)
Definition format_08b (n : Z) : str :=
  match n with
  | Z0 => repeat (ch "0") 8
  | Zpos p => repeat (ch "0") (8 - length (bin_digits p)) ++ bin_digits p
  | Zneg p =>
      ch "-" :: repeat (ch "0") (7 - length (bin_digits p)) ++ bin_digits p
  end.

(** The integer and boolean entries of the dictionary returned by
    [compare_with_binary]; the three bit densities (floats) are left
    out. *)
Record comparison : Type := mk_comparison {
  cmp_message_length : Z;
  gzr_bits_count : Z;
  gzr_pattern_111 : Z;
  gzr_valid : bool;
  binary_bits_count : Z;
  binary_pattern_111 : Z;
  binary_valid : bool;
  difference_bits : Z;
  pattern_111_reduction : Z
}.

(** [compare_with_binary] reads no attribute of the encoder. *)
Definition compare_with_binary (message : str) : comparison :=
  let gzr_bits := text_to_gzr message in
  let '(gzr_valid, gzr_111) := verify_no_111_pattern gzr_bits in
  let binary_bits := concat (map (fun c => format_08b (ord c)) message) in
  let '(binary_valid, binary_111) := verify_no_111_pattern binary_bits in
  mk_comparison (len message)
    (len gzr_bits) gzr_111 gzr_valid
    (len binary_bits) binary_111 binary_valid
    (len gzr_bits - len binary_bits) (binary_111 - gzr_111).

(** * decoder.py *)

Record GZRDecoder : Type := mk_GZRDecoder {
  dec_stego_image : positive;
  extracted_bits : option str;
  dec_message : option str
}.

(** The body of the inner loop of [_extract_bits], at pixel [(i, j)]; the
    loop state is [(bits, bit_index)]. *)
Definition extract_pixel (stego_image : positive) (start_bit length : Z)
  (i j : nat) (st : list str * Z) : M GZRDecoder (list str * Z + str) :=
  let '(bits, bit_index) := st in
  let! bits :=
    (if (bit_index >=? start_bit) && (bit_index <? start_bit + length)
     then
       let! pixel_value := nd_getitem stego_image i j in
       let lsb := Z.land pixel_value 1 in
       mret (bits ++ [str_of_lsb lsb])
     else mret bits) in
  let bit_index := bit_index + 1 in
  if bit_index >=? start_bit + length then mret (inr (concat bits))
  else mret (inl (bits, bit_index)).

Definition _extract_bits (start_bit length : Z) : M GZRDecoder str :=
  let! self := get_self in
  let! '(height, width) := nd_shape (dec_stego_image self) in
  let! r := for_range_ret (seq 0 height)
              (fun i st =>
                 for_range_ret (seq 0 width)
                   (extract_pixel (dec_stego_image self) start_bit length i)
                   st)
              ([], 0) in
  match r with
  | inl (bits, _) => mret (concat bits)
  | inr v => mret v
  end.

(** [int(s, 2)] on a string of binary digits, most significant first. *)
Fixpoint bin_value (acc : Z) (s : str) : outcome Z :=
  match s with
  | [] => Ok acc
  | c :: s' =>
      if c =? ch "0" then bin_value (2 * acc) s'
      else if c =? ch "1" then bin_value (2 * acc + 1) s'
      else Raise ValueError
  end.

(** [int(s, 2)] for the strings that [_extract_bits] returns: digits '0'
    and '1' only. The empty string raises [ValueError]. A sign, the prefix
    "0b", underscores and surrounding blanks, which Python would accept,
    are not modelled (they raise here); no such character is read from
    pixels. *)
Definition int_base2 (s : str) : outcome Z :=
  match s with
  | [] => Raise ValueError
  | _ => bin_value 0 s
  end.

Definition decode_message : M GZRDecoder str :=
  let! length_bits := _extract_bits 0 32 in
  let! message_length := lift (int_base2 length_bits) in
  let! bits := _extract_bits 32 message_length in
  let! self := get_self in
  let! _ := set_self
              (mk_GZRDecoder (dec_stego_image self) (Some bits)
                 (dec_message self)) in
  let! message := lift (gzr_to_text bits) in
  let! self := get_self in
  let! _ := set_self
              (mk_GZRDecoder (dec_stego_image self) (extracted_bits self)
                 (Some message)) in
  mret message.

(** * Vocabulary of the statements and of the loop invariants *)

Definition increasing (l : list Z) : Prop :=
  forall (i j : nat) (x y : Z),
    l !! i = Some x -> l !! j = Some y -> (i < j)%nat -> x < y.

Definition trib_inv (l : list Z) : Prop :=
  (3 <= length l)%nat /\ Forall (fun x => 0 < x) l /\ increasing l.

Definition is_bits (s : str) : Prop :=
  Forall (fun c => c = ch "0" \/ c = ch "1") s.

Definition is_digit_strs (bits : list str) : Prop :=
  Forall (fun b => b = [ch "0"] \/ b = [ch "1"]) bits.

(** The digit string built by the greedy loop, before the strip. *)
Definition greedy_digits (n : Z) (tribonacci_seq : list Z) : str :=
  concat (rev (fold_left greedy_step (rev tribonacci_seq) ([], n)).1).

Definition seq_of (n : Z) (tribonacci_seq : option (list Z)) : list Z :=
  match tribonacci_seq with
  | None => generate_tribonacci n
  | Some s => s
  end.

(** Checking a boolean property on every integer of a finite interval. *)
Definition Z_upto (lo : Z) (n : nat) : list Z :=
  map (fun k => lo + Z.of_nat k) (seq 0 n).

(** The 9-digit slot of one character. *)
Definition slot (c : Z) : str :=
  zfill 9 (decimal_to_gzr (ord c) (Some (generate_tribonacci 255))).

(** Decoding one slot gives the character back (checked on all 256
    values). *)
Definition slot_decodes (c : Z) : bool :=
  gzr_to_decimal (slot c) (Some (generate_tribonacci 255)) =? c.

(** The pixels after LSB substitution, as a function of the old pixels
    and the digits. *)
Fixpoint lsb_embed (pixels : list Z) (bits : str) : list Z :=
  match pixels, bits with
  | p :: ps, c :: cs => Z.lor (Z.land p 254) (c - ch "0") :: lsb_embed ps cs
  | _, _ => pixels
  end.

Definition wf_array (a : ndarray) : Prop :=
  length (data a) = ((shape a).1 * (shape a).2)%nat /\
  Forall (fun p => 0 <= p <= 255) (data a).

(** What a loop with [return] establishes: [I] if it ran to its end, [Q] if
    it returned, and it did not raise. *)
Definition loop_post {O St R} (I : St -> world O -> Prop)
  (Q : R -> world O -> Prop) (res : outcome (St + R) * world O) : Prop :=
  match res with
  | (Ok (inl s), w) => I s w
  | (Ok (inr r), w) => Q r w
  | _ => False
  end.

(** The world while [_embed_bits] runs: the copy [stego] holds the first
    [k] digits, everything else is as it was. *)
Definition embed_world (self0 : GZREncoder) (h0 : gmap positive ndarray)
  (stego : positive) (shp : nat * nat) (d0 : list Z) (bits : str) (k : nat)
  : world GZREncoder :=
  mk_world self0 (<[stego := mk_ndarray shp (lsb_embed d0 (take k bits))]> h0).

Definition embed_inv (self0 : GZREncoder) (h0 : gmap positive ndarray)
  (stego : positive) (shp : nat * nat) (d0 : list Z) (bits : str) (k : nat)
  (st : Z * Z) (w : world GZREncoder) : Prop :=
  st.1 = Z.of_nat k /\ (k <= length bits)%nat /\
  w = embed_world self0 h0 stego shp d0 bits k.

Definition embed_done (self0 : GZREncoder) (h0 : gmap positive ndarray)
  (stego : positive) (shp : nat * nat) (d0 : list Z) (bits : str)
  (r : positive) (w : world GZREncoder) : Prop :=
  r = stego /\
  w = mk_world self0 (<[stego := mk_ndarray shp (lsb_embed d0 bits)]> h0).

(** The digits read from a list of pixels. *)
Definition lsb_strs (pixels : list Z) : list str :=
  map (fun p => str_of_lsb (Z.land p 1)) pixels.

Definition extract_inv (self0 : GZRDecoder) (h : gmap positive ndarray)
  (d : list Z) (n : nat) (k : nat) (st : list str * Z)
  (w : world GZRDecoder) : Prop :=
  st.2 = Z.of_nat k /\ st.1 = lsb_strs (take k d) /\
  (k = 0%nat \/ (k < n)%nat) /\ w = mk_world self0 h.

Definition extract_done (self0 : GZRDecoder) (h : gmap positive ndarray)
  (d : list Z) (n : nat) (r : str) (w : world GZRDecoder) : Prop :=
  r = concat (lsb_strs (take n d)) /\ w = mk_world self0 h.

Definition lsb_in_range (p : Z) : bool :=
  let v0 := Z.lor (Z.land p 254) 0 in
  let v1 := Z.lor (Z.land p 254) 1 in
  (0 <=? v0) && (v0 <=? 255) && (0 <=? v1) && (v1 <=? 255).

(** A 2-by-3 image and an encoder that holds it, for the examples. *)
Definition demo_image : ndarray :=
  mk_ndarray (2, 3)%nat [10; 11; 12; 13; 14; 15].

Definition demo_world : world GZREncoder :=
  mk_world (mk_GZREncoder 1%positive None None) {[ 1%positive := demo_image ]}.

(** The digits "1101". *)
Definition demo_bits : str := map ch ["1"; "1"; "0"; "1"]%char.

(** A 4-by-4 image: 16 pixels, a capacity of 2 bytes. *)
Definition small_world : world GZREncoder :=
  mk_world (mk_GZREncoder 1%positive None None)
    {[ 1%positive := mk_ndarray (4, 4)%nat (repeat 200 16) ]}.

(** The sum of a list of integers. *)
Definition zsum (l : list Z) : Z := foldr Z.add 0 l.

(** The value of a digit string against a list of weights: the weights at
    the positions of the digits '1'. *)
Fixpoint dotc (ws : list Z) (digits : str) : Z :=
  match ws, digits with
  | w :: ws', c :: cs => (if c =? ch "1" then w else 0) + dotc ws' cs
  | _, _ => 0
  end.

(** Weights, largest first, each positive and at most one more than the
    sum of the smaller ones. *)
Fixpoint complete_desc (d : list Z) : Prop :=
  match d with
  | [] => True
  | t :: d' => 0 < t <= 1 + zsum d' /\ complete_desc d'
  end.

Definition complete (l : list Z) : Prop := complete_desc (rev l).

(** The characters that [gzr_to_text] appends for one complete 9-digit
    chunk: the decoded value when it is positive, nothing otherwise. *)
Definition chunk_chars (chunk : str) : str :=
  let ascii_val := gzr_to_decimal chunk (Some (generate_tribonacci 255)) in
  if ascii_val >? 0 then [ascii_val] else [].

(** What is checked of the slot of one character for the run-free
    property of a text: no "111" inside, and a last digit '0'. *)
Definition slot_run_free (c : Z) : bool :=
  (str_count (slot c) [ch "1"; ch "1"; ch "1"] =? 0)
  && bool_decide (slot c !! 8%nat = Some (ch "0")).

(** The invariant of the scan of [_extract_bits(start, n)] on pixels [d]
    after [k] pixels, and what holds when it returns. *)
Definition extract_range_inv (self0 : GZRDecoder)
  (h : gmap positive ndarray) (d : list Z) (start n : nat) (k : nat)
  (st : list str * Z) (w : world GZRDecoder) : Prop :=
  st.2 = Z.of_nat k /\ st.1 = lsb_strs (drop start (take k d)) /\
  (k = 0%nat \/ (k < start + n)%nat) /\ w = mk_world self0 h.

Definition extract_range_done (self0 : GZRDecoder)
  (h : gmap positive ndarray) (d : list Z) (start n : nat) (r : str)
  (w : world GZRDecoder) : Prop :=
  r = concat (lsb_strs (take n (drop start d))) /\ w = mk_world self0 h.

(** The digit that [_extract_bits] reads from one pixel. *)
Definition lsb_char (p : Z) : Z :=
  if Z.land p 1 =? 0 then ch "0" else ch "1".

(** What is checked of one pixel value for the distortion bound: with
    either digit the new value has the same upper seven bits. *)
Definition lsb_keeps_upper (p : Z) : bool :=
  (Z.lor (Z.land p 254) 0 / 2 =? p / 2)
  && (Z.lor (Z.land p 254) 1 / 2 =? p / 2).

(** A decoder that holds the array [stego], before any decoding. *)
Definition decoder_of (stego : positive) : GZRDecoder :=
  mk_GZRDecoder stego None None.

(** An 8-by-8 image: 64 pixels, a capacity of 8 bytes. *)
Definition tight_world : world GZREncoder :=
  mk_world (mk_GZREncoder 1%positive None None)
    {[ 1%positive := mk_ndarray (8, 8)%nat (repeat 200 64) ]}.

(** The frame that [encode_message] embeds: the 32-digit header, then the
    payload. *)
Definition frame_of (message : str) : str :=
  format_032b (len (text_to_gzr message)) ++ text_to_gzr message.

(** The Tribonacci numbers of the source, [T(0) = 1], [T(1) = 2],
    [T(2) = 4], [T(k + 3) = T(k) + T(k + 1) + T(k + 2)], three at a time. *)
Fixpoint trib_triple (k : nat) : Z * Z * Z :=
  match k with
  | O => (1, 2, 4)
  | S k' => let '(a, b, c) := trib_triple k' in (b, c, a + b + c)
  end.

Definition trib (k : nat) : Z := (trib_triple k).1.1.

(** What is checked of one code point for the width of its binary form. *)
Definition byte_width_8 (c : Z) : bool := (length (format_08b c) =? 8)%nat.

(** * Proofs *)

Section Generator.

Lemma last3_split {A} (l : list A) :
  (3 <= length l)%nat -> exists pre a b c, l = pre ++ [a; b; c].
Proof.
  intros Hlen.
  exists (take (length l - 3) l).
  pose proof (take_drop (length l - 3) l) as Htd.
  assert (Hd : length (drop (length l - 3) l) = 3%nat)
    by (rewrite length_drop; lia).
  destruct (drop (length l - 3) l) as [|a [|b [|c [|? ?]]]]; try discriminate.
  exists a, b, c. symmetry. exact Htd.
Qed.

Lemma getitem_neg {A} (l : list A) (k : nat) (x : A) :
  (1 <= k <= length l)%nat ->
  l !! (length l - k)%nat = Some x ->
  getitem l (- Z.of_nat k) = Ok x.
Proof.
  intros Hk Hx. unfold getitem.
  destruct (Z.ltb_spec (- Z.of_nat k) 0) as [_|?]; [|lia].
  destruct (Z.leb_spec 0 (- Z.of_nat k + Z.of_nat (length l))) as [_|?];
    [|lia].
  destruct (Z.ltb_spec (- Z.of_nat k + Z.of_nat (length l))
              (Z.of_nat (length l))) as [_|?]; [|lia].
  cbn [andb].
  replace (Z.to_nat (- Z.of_nat k + Z.of_nat (length l)))
    with (length l - k)%nat by lia.
  now rewrite Hx.
Qed.

Lemma getitem_last3 (pre : list Z) (a b c : Z) :
  getitem (pre ++ [a; b; c]) (-1) = Ok c /\
  getitem (pre ++ [a; b; c]) (-2) = Ok b /\
  getitem (pre ++ [a; b; c]) (-3) = Ok a.
Proof.
  assert (Hlen : length (pre ++ [a; b; c]) = (length pre + 3)%nat)
    by (rewrite length_app; reflexivity).
  repeat split.
  - apply (getitem_neg _ 1); [lia|].
    rewrite Hlen, lookup_app_r by lia.
    now replace (length pre + 3 - 1 - length pre)%nat with 2%nat by lia.
  - apply (getitem_neg _ 2); [lia|].
    rewrite Hlen, lookup_app_r by lia.
    now replace (length pre + 3 - 2 - length pre)%nat with 1%nat by lia.
  - apply (getitem_neg _ 3); [lia|].
    rewrite Hlen, lookup_app_r by lia.
    now replace (length pre + 3 - 3 - length pre)%nat with 0%nat by lia.
Qed.

Lemma increasing_snoc (l : list Z) (x : Z) :
  increasing l -> Forall (fun y => y < x) l -> increasing (l ++ [x]).
Proof.
  intros Hinc Hall i j u v Hi Hj Hij.
  assert (Hjlen : (j < length (l ++ [x]))%nat) by (eapply lookup_lt_Some; eauto).
  rewrite length_app in Hjlen. cbn in Hjlen.
  assert (Hil : l !! i = Some u).
  { rewrite lookup_app_l in Hi by lia. exact Hi. }
  destruct (decide (j < length l)%nat) as [Hjl|Hjl].
  - rewrite lookup_app_l in Hj by lia. eapply Hinc; eauto.
  - rewrite lookup_app_r in Hj by lia.
    replace (j - length l)%nat with 0%nat in Hj by lia.
    cbn in Hj. injection Hj as <-.
    rewrite Forall_forall in Hall. apply Hall.
    eapply list_elem_of_lookup_2; eauto.
Qed.

Lemma increasing_le_last (pre : list Z) (c y : Z) :
  increasing (pre ++ [c]) -> y ∈ pre ++ [c] -> y <= c.
Proof.
  intros Hinc Hin.
  apply list_elem_of_lookup in Hin as [i Hi].
  assert (Hc : (pre ++ [c]) !! length pre = Some c).
  { rewrite lookup_app_r by lia. now rewrite Nat.sub_diag. }
  assert (Hlt : (i < length (pre ++ [c]))%nat) by (eapply lookup_lt_Some; eauto).
  rewrite length_app in Hlt. cbn in Hlt.
  destruct (decide (i = length pre)) as [->|Hne].
  - rewrite Hc in Hi. injection Hi as <-. lia.
  - assert (y < c) by (eapply Hinc; eauto; lia). lia.
Qed.

Lemma tribonacci_loop_S (fuel : nat) (max_value : Z) (tribonacci : list Z) :
  tribonacci_loop (S fuel) max_value tribonacci =
  let* last := getitem tribonacci (-1) in
  if last <? max_value then
    let* t1 := getitem tribonacci (-1) in
    let* t2 := getitem tribonacci (-2) in
    let* t3 := getitem tribonacci (-3) in
    if t1 + t2 + t3 >? max_value then Ok tribonacci
    else tribonacci_loop fuel max_value (tribonacci ++ [t1 + t2 + t3])
  else Ok tribonacci.
Proof. reflexivity. Qed.

Lemma tribonacci_loop_spec (max_value : Z) (fuel : nat) :
  forall (pre : list Z) (a b c : Z),
    trib_inv (pre ++ [a; b; c]) ->
    max_value - c <= Z.of_nat fuel ->
    match tribonacci_loop (S fuel) max_value (pre ++ [a; b; c]) with
    | Ok r => trib_inv r /\ (pre ++ [a; b; c]) `prefix_of` r
    | _ => False
    end.
Proof.
  induction fuel as [|fuel IH]; intros pre a b c Hinv Hfuel;
    destruct (getitem_last3 pre a b c) as (H1 & H2 & H3);
    rewrite tribonacci_loop_S, H1; cbn [obind].
  - destruct (Z.ltb_spec c max_value) as [Hlt|Hge]; [cbn in Hfuel; lia|].
    split; [exact Hinv|reflexivity].
  - destruct (Z.ltb_spec c max_value) as [Hlt|Hge];
      [|split; [exact Hinv|reflexivity]].
    rewrite H2, H3. cbn [obind].
    destruct (Z.gtb_spec (c + b + a) max_value) as [Hgt|Hle];
      [split; [exact Hinv|reflexivity]|].
    pose proof Hinv as (Hlen & Hpos & Hinc).
    assert (Habc : 0 < a /\ 0 < b /\ 0 < c).
    { rewrite Forall_forall in Hpos. repeat split; apply Hpos; set_solver. }
    assert (Hinv' : trib_inv ((pre ++ [a]) ++ [b; c; c + b + a])).
    { replace ((pre ++ [a]) ++ [b; c; c + b + a])
        with ((pre ++ [a; b; c]) ++ [c + b + a])
        by (now rewrite <- !app_assoc).
      repeat split.
      - rewrite length_app. lia.
      - apply Forall_app; split; [exact Hpos|].
        constructor; [lia|constructor].
      - apply increasing_snoc; [exact Hinc|].
        apply Forall_forall. intros y Hy.
        assert (y <= c); [|lia].
        change (pre ++ [a; b; c]) with (pre ++ [a; b] ++ [c]) in Hy, Hinc.
        rewrite app_assoc in Hy, Hinc.
        eapply increasing_le_last; eauto. }
    specialize (IH (pre ++ [a]) b c (c + b + a) Hinv' ltac:(lia)).
    replace ((pre ++ [a]) ++ [b; c; c + b + a])
      with ((pre ++ [a; b; c]) ++ [c + b + a]) in IH
      by (now rewrite <- !app_assoc).
    destruct (tribonacci_loop (S fuel) max_value
                ((pre ++ [a; b; c]) ++ [c + b + a])) as [r| |];
      try contradiction.
    destruct IH as [Hinvr Hpre]. split; [exact Hinvr|].
    etransitivity; [|exact Hpre]. now apply prefix_app_r.
Qed.

Lemma tribonacci_loop_fuel_mono (max_value : Z) (fuel : nat) :
  forall (l r : list Z),
    tribonacci_loop fuel max_value l = Ok r ->
    tribonacci_loop (S fuel) max_value l = Ok r.
Proof.
  induction fuel as [|fuel IH]; intros l r Hr; [discriminate|].
  rewrite tribonacci_loop_S in Hr. rewrite tribonacci_loop_S.
  destruct (getitem l (-1)) as [c| |]; cbn [obind] in *; try discriminate.
  destruct (c <? max_value); [|exact Hr].
  destruct (getitem l (-2)) as [b| |]; cbn [obind] in *; try discriminate.
  destruct (getitem l (-3)) as [a| |]; cbn [obind] in *; try discriminate.
  destruct (c + b + a >? max_value); [exact Hr|].
  apply IH in Hr. exact Hr.
Qed.

Lemma seed_inv : trib_inv ([] ++ [1; 2; 4]).
Proof.
  repeat split.
  - cbn. lia.
  - repeat constructor.
  - intros i j x y Hi Hj Hij.
    destruct i as [|[|[|i]]], j as [|[|[|j]]]; cbn in Hi, Hj;
      try discriminate; try lia;
      injection Hi as <-; injection Hj as <-; lia.
Qed.

(** The fuel chosen by [generate_tribonacci] is enough, and more fuel does
    not change the result: the function is total. *)
Lemma generate_tribonacci_fuel_enough (max_value : Z) (fuel : nat) :
  (Z.to_nat max_value < fuel)%nat ->
  generate_tribonacci_fuel fuel max_value = Ok (generate_tribonacci max_value).
Proof.
  intros Hfuel.
  assert (Hbase : generate_tribonacci_fuel (S (Z.to_nat max_value)) max_value
                  = Ok (generate_tribonacci max_value)).
  { unfold generate_tribonacci, generate_tribonacci_fuel.
    destruct (Z.ltb_spec max_value 1) as [Hlt|Hge]; [reflexivity|].
    pose proof (tribonacci_loop_spec max_value (Z.to_nat max_value)
                  [] 1 2 4 seed_inv ltac:(lia)) as Hspec.
    cbn [app] in Hspec.
    destruct (tribonacci_loop (S (Z.to_nat max_value)) max_value [1; 2; 4]);
      [reflexivity|contradiction|contradiction]. }
  induction Hfuel as [|m Hm IH]; [exact Hbase|].
  unfold generate_tribonacci_fuel in *.
  destruct (max_value <? 1); [exact IH|].
  now apply tribonacci_loop_fuel_mono.
Qed.

Lemma generate_tribonacci_below (max_value : Z) :
  max_value < 1 -> generate_tribonacci max_value = [].
Proof.
  intros Hlt. unfold generate_tribonacci, generate_tribonacci_fuel.
  destruct (Z.ltb_spec max_value 1); [reflexivity|lia].
Qed.

Lemma generate_tribonacci_inv (max_value : Z) :
  1 <= max_value ->
  trib_inv (generate_tribonacci max_value) /\
  [1; 2; 4] `prefix_of` generate_tribonacci max_value.
Proof.
  intros Hge. unfold generate_tribonacci, generate_tribonacci_fuel.
  destruct (Z.ltb_spec max_value 1) as [Hlt|_]; [lia|].
  pose proof (tribonacci_loop_spec max_value (Z.to_nat max_value)
                [] 1 2 4 seed_inv ltac:(lia)) as Hspec.
  cbn [app] in Hspec.
  destruct (tribonacci_loop (S (Z.to_nat max_value)) max_value [1; 2; 4]);
    [exact Hspec|contradiction|contradiction].
Qed.

End Generator.

Section Codec.

Lemma is_bits_app (s t : str) : is_bits s -> is_bits t -> is_bits (s ++ t).
Proof. intros Hs Ht. apply Forall_app. now split. Qed.

Lemma is_bits_repeat0 (k : nat) : is_bits (repeat (ch "0") k).
Proof. induction k; cbn [repeat]; constructor; auto. Qed.

Lemma greedy_fold_bits (l : list Z) :
  forall (bits : list str) (remaining : Z),
    is_digit_strs bits ->
    is_digit_strs (fold_left greedy_step l (bits, remaining)).1 /\
    length (fold_left greedy_step l (bits, remaining)).1
    = (length bits + length l)%nat.
Proof.
  induction l as [|t l IH]; intros bits remaining Hbits; cbn [fold_left].
  - split; [exact Hbits|cbn; lia].
  - unfold greedy_step at 2 4.
    destruct (t <=? remaining);
      (edestruct IH as [H1 H2];
       [|split; [exact H1|rewrite H2, length_app; cbn; lia]]);
      apply Forall_app; split; auto; repeat constructor; auto.
Qed.

Lemma concat_digit_strs (bits : list str) :
  is_digit_strs bits ->
  is_bits (concat bits) /\ length (concat bits) = length bits.
Proof.
  induction 1 as [|b bits Hb _ [IH1 IH2]]; cbn [concat].
  - split; [constructor|reflexivity].
  - destruct Hb as [-> | ->]; cbn; (split; [constructor; auto|]);
      now rewrite IH2.
Qed.

Lemma lstrip0_spec (s : str) :
  is_bits s ->
  is_bits (lstrip [ch "0"] s) /\
  (lstrip [ch "0"] s = [] \/ exists t, lstrip [ch "0"] s = ch "1" :: t) /\
  s = repeat (ch "0") (length s - length (lstrip [ch "0"] s))
      ++ lstrip [ch "0"] s.
Proof.
  induction 1 as [|c s Hc Hs (IH1 & IH2 & IH3)].
  - cbn. repeat split; [constructor|now left].
  - destruct Hc as [-> | ->].
    + change (lstrip [ch "0"] (ch "0" :: s)) with (lstrip [ch "0"] s).
      repeat split; [exact IH1|exact IH2|].
      assert (Hlen : (length (lstrip [ch "0"] s) <= length s)%nat).
      { rewrite IH3 at 2. rewrite length_app. lia. }
      cbn [length].
      replace (S (length s) - length (lstrip [ch "0"] s))%nat
        with (S (length s - length (lstrip [ch "0"] s))) by lia.
      cbn [repeat app]. now rewrite <- IH3.
    + change (lstrip [ch "0"] (ch "1" :: s)) with (ch "1" :: s).
      repeat split; [constructor; auto|right; eauto|].
      now rewrite Nat.sub_diag.
Qed.

Lemma decimal_to_gzr_unfold (n : Z) (tribonacci_seq : list Z) :
  0 < n ->
  decimal_to_gzr n (Some tribonacci_seq) =
  match lstrip [ch "0"] (greedy_digits n tribonacci_seq) with
  | [] => [ch "0"]
  | r => r
  end.
Proof.
  intros Hn. unfold decimal_to_gzr, greedy_digits.
  destruct (Z.leb_spec n 0); [lia|].
  destruct (fold_left greedy_step (rev tribonacci_seq) ([], n)) as [l z].
  cbn [fst]. now destruct (lstrip [ch "0"] (concat (rev l))).
Qed.

Lemma greedy_digits_bits (n : Z) (tribonacci_seq : list Z) :
  is_bits (greedy_digits n tribonacci_seq) /\
  length (greedy_digits n tribonacci_seq) = length tribonacci_seq.
Proof.
  unfold greedy_digits.
  destruct (greedy_fold_bits (rev tribonacci_seq) [] n) as [H1 H2];
    [constructor|].
  destruct (concat_digit_strs
              (rev (fold_left greedy_step (rev tribonacci_seq) ([], n)).1))
    as [H3 H4].
  { now apply List.Forall_rev. }
  split; [exact H3|].
  rewrite H4, length_rev, H2, length_rev. reflexivity.
Qed.

Lemma decimal_to_gzr_shape (n : Z) (tribonacci_seq : option (list Z)) :
  let s := decimal_to_gzr n tribonacci_seq in
  is_bits s /\
  (s = [ch "0"] \/ exists t, s = ch "1" :: t) /\
  (length s <= Nat.max 1 (length (seq_of n tribonacci_seq)))%nat.
Proof.
  cbn zeta.
  destruct (Z.leb_spec n 0) as [Hle|Hgt].
  - unfold decimal_to_gzr. destruct (Z.leb_spec n 0); [|lia].
    repeat split; [repeat constructor; auto|now left|cbn; lia].
  - assert (Heq : decimal_to_gzr n tribonacci_seq
                  = decimal_to_gzr n (Some (seq_of n tribonacci_seq))).
    { unfold decimal_to_gzr. now destruct tribonacci_seq. }
    rewrite Heq, decimal_to_gzr_unfold by lia.
    destruct (greedy_digits_bits n (seq_of n tribonacci_seq)) as [Hb Hl].
    destruct (lstrip0_spec _ Hb) as (H1 & H2 & H3).
    assert (Hlen : (length (lstrip [ch "0"]
                              (greedy_digits n (seq_of n tribonacci_seq)))
                    <= length (seq_of n tribonacci_seq))%nat).
    { rewrite <- Hl. rewrite H3 at 2. rewrite length_app. lia. }
    destruct (lstrip [ch "0"] (greedy_digits n (seq_of n tribonacci_seq)))
      as [|c r] eqn:Hr.
    + repeat split; [repeat constructor; auto|now left|cbn; lia].
    + repeat split; [exact H1| |lia].
      destruct H2 as [H2|H2]; [discriminate|now right].
Qed.

End Codec.

Section TextCodec.

Lemma forallb_Z_upto (f : Z -> bool) (lo : Z) (n : nat) :
  forallb f (Z_upto lo n) = true ->
  forall z, lo <= z < lo + Z.of_nat n -> f z = true.
Proof.
  intros Hall z Hz.
  rewrite List.forallb_forall in Hall. apply Hall.
  unfold Z_upto. apply in_map_iff.
  exists (Z.to_nat (z - lo)). split; [lia|].
  apply in_seq. lia.
Qed.

Lemma fold_left_snoc {A B} (f : A -> B) (l : list A) :
  forall acc : list B,
    fold_left (fun acc x => acc ++ [f x]) l acc = acc ++ map f l.
Proof.
  induction l as [|x l IH]; intros acc; cbn [fold_left map].
  - now rewrite app_nil_r.
  - rewrite IH, <- app_assoc. reflexivity.
Qed.

Lemma text_to_gzr_slots (text : str) :
  text_to_gzr text = concat (map slot text).
Proof.
  unfold text_to_gzr. cbn zeta. f_equal.
  exact (fold_left_snoc slot text []).
Qed.

Lemma zfill_bits (width : nat) (s : str) :
  is_bits s -> zfill width s = repeat (ch "0") (width - length s) ++ s.
Proof.
  intros Hs. unfold zfill.
  destruct (Nat.leb_spec width (length s)) as [Hle|Hgt].
  - now replace (width - length s)%nat with 0%nat by lia.
  - destruct Hs as [|c s Hc Hs]; [now rewrite app_nil_r|].
    now destruct Hc as [-> | ->].
Qed.

Lemma length_generate_255 : length (generate_tribonacci 255) = 9%nat.
Proof. reflexivity. Qed.

Lemma slot_spec (c : Z) :
  let g := decimal_to_gzr c (Some (generate_tribonacci 255)) in
  slot c = repeat (ch "0") (9 - length g) ++ g /\
  (length g <= 9)%nat /\ length (slot c) = 9%nat /\ is_bits (slot c).
Proof.
  cbn zeta. unfold slot, ord.
  destruct (decimal_to_gzr_shape c (Some (generate_tribonacci 255)))
    as (Hb & _ & Hlen).
  cbn zeta in Hb, Hlen. cbn [seq_of] in Hlen.
  rewrite length_generate_255 in Hlen.
  rewrite zfill_bits by exact Hb.
  repeat split; [lia| |].
  - rewrite length_app, repeat_length. lia.
  - apply is_bits_app; [apply is_bits_repeat0|exact Hb].
Qed.

Lemma text_to_gzr_bits (text : str) : is_bits (text_to_gzr text).
Proof.
  rewrite text_to_gzr_slots.
  induction text as [|c text IH]; cbn [map concat]; [constructor|].
  apply is_bits_app; [|exact IH]. apply slot_spec.
Qed.

Lemma length_concat_slots (text : str) :
  length (concat (map slot text)) = (9 * length text)%nat.
Proof.
  induction text as [|c text IH]; cbn [map concat length]; [reflexivity|].
  destruct (slot_spec c) as (_ & _ & Hlen & _).
  rewrite length_app, IH, Hlen. lia.
Qed.

Lemma slot_roundtrip (c : Z) :
  0 <= c <= 255 ->
  gzr_to_decimal (slot c) (Some (generate_tribonacci 255)) = c.
Proof.
  intros Hc. apply Z.eqb_eq.
  apply (forallb_Z_upto slot_decodes 0 256); [vm_compute; reflexivity|lia].
Qed.

Lemma range_step_slot (n : nat) :
  range_step (n + 9) 9 = 0%nat :: map (fun i => (i + 9)%nat) (range_step n 9).
Proof.
  unfold range_step.
  replace ((n + 9 + 9 - 1) / 9)%nat with (S ((n + 9 - 1) / 9)).
  - cbn [seq map]. f_equal.
    rewrite <- seq_shift, !map_map. apply map_ext. intros k. lia.
  - replace (n + 9 + 9 - 1)%nat with (n + 9 - 1 + 1 * 9)%nat by lia.
    rewrite Nat.div_add by lia. lia.
Qed.

Lemma gzr_to_text_body_shift (sl rest : str) (tribonacci_seq : list Z)
  (chars : str) (i : nat) :
  length sl = 9%nat ->
  gzr_to_text_body (sl ++ rest) tribonacci_seq 9 chars (i + 9)
  = gzr_to_text_body rest tribonacci_seq 9 chars i.
Proof.
  intros Hlen. unfold gzr_to_text_body, slice.
  replace (i + 9 + 9 - (i + 9))%nat with 9%nat by lia.
  replace (i + 9 - i)%nat with 9%nat by lia.
  replace (i + 9)%nat with (length sl + i)%nat by lia.
  rewrite drop_app_add. reflexivity.
Qed.

Lemma for_each_shift (sl rest : str) (tribonacci_seq : list Z)
  (idxs : list nat) :
  length sl = 9%nat ->
  forall chars : str,
    for_each (map (fun i => (i + 9)%nat) idxs)
      (gzr_to_text_body (sl ++ rest) tribonacci_seq 9) chars
    = for_each idxs (gzr_to_text_body rest tribonacci_seq 9) chars.
Proof.
  intros Hlen.
  induction idxs as [|i idxs IH]; intros chars; cbn [map for_each];
    [reflexivity|].
  rewrite gzr_to_text_body_shift by exact Hlen.
  destruct (gzr_to_text_body rest tribonacci_seq 9 chars i); cbn [obind];
    auto.
Qed.

Lemma gzr_to_text_body_first (c : Z) (rest chars : str) :
  0 <= c <= 255 ->
  gzr_to_text_body (slot c ++ rest) (generate_tribonacci 255) 9 chars 0
  = Ok (chars ++ filter (fun x => x <> 0) [c]).
Proof.
  intros Hc. destruct (slot_spec c) as (_ & _ & Hlen & _).
  unfold gzr_to_text_body, slice.
  rewrite drop_0. replace (0 + 9 - 0)%nat with 9%nat by lia.
  rewrite take_app_length' by (symmetry; exact Hlen).
  rewrite Hlen, Nat.eqb_refl, slot_roundtrip by exact Hc.
  destruct (Z.gtb_spec c 0) as [Hpos|Hzero].
  - unfold chr.
    destruct (Z.leb_spec 0 c); [|lia].
    destruct (Z.ltb_spec c 1114112); [|lia].
    cbn [andb obind].
    rewrite filter_cons_True by lia. reflexivity.
  - rewrite filter_cons_False by lia. cbn. now rewrite app_nil_r.
Qed.

Lemma gzr_to_text_slots (text : str) :
  Forall (fun c => 0 <= c <= 255) text ->
  forall chars : str,
    for_each (range_step (length (concat (map slot text))) 9)
      (gzr_to_text_body (concat (map slot text)) (generate_tribonacci 255) 9)
      chars
    = Ok (chars ++ filter (fun x => x <> 0) text).
Proof.
  induction 1 as [|c text Hc Htext IH]; intros chars.
  - cbn. now rewrite app_nil_r.
  - cbn [map concat].
    destruct (slot_spec c) as (_ & _ & Hlen & _).
    rewrite length_app, Hlen, Nat.add_comm, range_step_slot.
    cbn [for_each].
    rewrite gzr_to_text_body_first by exact Hc. cbn [obind].
    rewrite for_each_shift by exact Hlen.
    rewrite IH, <- app_assoc.
    change (c :: text) with ([c] ++ text).
    now rewrite filter_app.
Qed.

End TextCodec.

Section Channel.

Lemma for_range_ret_inv {O St R} (I : nat -> St -> world O -> Prop)
  (Q : R -> world O -> Prop) (body : nat -> St -> M O (St + R)) (n : nat) :
  forall (a : nat) (s : St) (w : world O),
    I a s w ->
    (forall i s w, (a <= i < a + n)%nat -> I i s w ->
                   loop_post (I (S i)) Q (body i s w)) ->
    loop_post (I (a + n)%nat) Q (for_range_ret (seq a n) body s w).
Proof.
  induction n as [|n IH]; intros a s w HI Hbody; cbn [seq for_range_ret].
  - rewrite Nat.add_0_r. exact HI.
  - pose proof (Hbody a s w ltac:(lia) HI) as Hstep.
    unfold mbind. unfold loop_post in Hstep.
    destruct (body a s w) as [[[s'|r]| |] w']; try contradiction.
    + replace (a + S n)%nat with (S a + n)%nat by lia.
      apply IH; [exact Hstep|].
      intros i s1 w1 Hi. apply Hbody. lia.
    + exact Hstep.
Qed.

Lemma getitem_nat {A} (l : list A) (k : nat) (x : A) :
  l !! k = Some x -> getitem l (Z.of_nat k) = Ok x.
Proof.
  intros Hk. unfold getitem.
  pose proof (lookup_lt_Some _ _ _ Hk) as Hlt.
  destruct (Z.ltb_spec (Z.of_nat k) 0); [lia|].
  destruct (Z.leb_spec 0 (Z.of_nat k)); [|lia].
  destruct (Z.ltb_spec (Z.of_nat k) (Z.of_nat (length l))); [|lia].
  cbn [andb]. now rewrite Nat2Z.id, Hk.
Qed.

Lemma int_of_char_bit (c : Z) :
  c = ch "0" \/ c = ch "1" -> int_of_char c = Ok (c - ch "0").
Proof. now intros [-> | ->]. Qed.

Lemma length_lsb_embed (pixels : list Z) :
  forall bits : str, length (lsb_embed pixels bits) = length pixels.
Proof.
  induction pixels as [|p ps IH]; intros [|c cs]; cbn [lsb_embed length];
    auto.
Qed.

Lemma lookup_lsb_embed (pixels : list Z) :
  forall (bits : str) (i : nat),
    lsb_embed pixels bits !! i =
    match pixels !! i with
    | Some p =>
        Some match bits !! i with
             | Some c => Z.lor (Z.land p 254) (c - ch "0")
             | None => p
             end
    | None => None
    end.
Proof.
  induction pixels as [|p ps IH]; intros [|c cs] [|i]; cbn [lsb_embed];
    try reflexivity.
  - cbn. now destruct (ps !! i).
  - cbn [lookup list_lookup]. apply IH.
Qed.

Lemma lsb_embed_step (pixels : list Z) (bits : str) (k : nat) (p c : Z) :
  pixels !! k = Some p ->
  bits !! k = Some c ->
  <[k := Z.lor (Z.land p 254) (c - ch "0")]> (lsb_embed pixels (take k bits))
  = lsb_embed pixels (take (S k) bits).
Proof.
  intros Hp Hc. apply list_eq. intros i.
  pose proof (lookup_lt_Some _ _ _ Hp) as Hlt.
  destruct (decide (i = k)) as [->|Hne].
  - rewrite list_lookup_insert_eq by (now rewrite length_lsb_embed).
    rewrite lookup_lsb_embed, Hp, lookup_take_lt, Hc by lia. reflexivity.
  - rewrite list_lookup_insert_ne by auto.
    rewrite !lookup_lsb_embed.
    destruct (pixels !! i); [|reflexivity].
    destruct (decide (i < k)%nat).
    + now rewrite !lookup_take_lt by lia.
    + now rewrite !lookup_take_ge by lia.
Qed.

Lemma lsb_embed_take (pixels : list Z) (bits : str) :
  lsb_embed pixels (take (length pixels) bits) = lsb_embed pixels bits.
Proof.
  apply list_eq. intros i. rewrite !lookup_lsb_embed.
  destruct (pixels !! i) eqn:Hp; [|reflexivity].
  apply lookup_lt_Some in Hp. now rewrite lookup_take_lt.
Qed.

Lemma new_pixel_range (p c : Z) :
  0 <= p <= 255 -> c = ch "0" \/ c = ch "1" ->
  0 <= Z.lor (Z.land p 254) (c - ch "0") <= 255.
Proof.
  intros Hp Hc.
  assert (Hb : lsb_in_range p = true)
    by (apply (forallb_Z_upto lsb_in_range 0 256);
        [vm_compute; reflexivity|lia]).
  unfold lsb_in_range in Hb. cbn zeta in Hb.
  destruct Hc as [-> | ->]; change (ch "0" - ch "0") with 0;
    change (ch "1" - ch "0") with 1; lia.
Qed.

Section EmbedLoop.

Variables (self0 : GZREncoder) (h0 : gmap positive ndarray).
Variables (stego : positive) (H W : nat) (d0 : list Z) (bits : str).
Hypothesis Hlen : length d0 = (H * W)%nat.
Hypothesis Hrange : Forall (fun p => 0 <= p <= 255) d0.
Hypothesis Hbits : is_bits bits.

Let inv := embed_inv self0 h0 stego (H, W) d0 bits.
Let done := embed_done self0 h0 stego (H, W) d0 bits.

Lemma embed_pixel_step (i j : nat) (st : Z * Z) (w : world GZREncoder) :
  (i < H)%nat -> (j < W)%nat ->
  inv (i * W + j)%nat st w ->
  loop_post (inv (S (i * W + j))) done (embed_pixel stego bits i j st w).
Proof.
  intros Hi Hj. destruct st as [bit_index embedded_count].
  intros (Hbi & Hk & ->). cbn [fst] in Hbi. subst bit_index.
  set (k := (i * W + j)%nat) in *.
  assert (HkHW : (k < H * W)%nat) by (subst k; nia).
  unfold embed_pixel, len. rewrite Z.geb_leb.
  destruct (Z.leb_spec (Z.of_nat (length bits)) (Z.of_nat k)) as [Hge|Hlt].
  - unfold mret, loop_post, done, embed_done. split; [reflexivity|].
    unfold embed_world. now rewrite take_ge by lia.
  - destruct (lookup_lt_is_Some_2 d0 k) as [p Hp]; [lia|].
    destruct (lookup_lt_is_Some_2 bits k) as [c Hc]; [lia|].
    assert (Hcbit : c = ch "0" \/ c = ch "1").
    { unfold is_bits in Hbits. rewrite Forall_forall in Hbits.
      apply Hbits. eapply list_elem_of_lookup_2; eauto. }
    assert (Hprange : 0 <= p <= 255).
    { rewrite Forall_forall in Hrange.
      apply Hrange. eapply list_elem_of_lookup_2; eauto. }
    pose proof (new_pixel_range p c Hprange Hcbit) as Hnew.
    assert (Hread : lsb_embed d0 (take k bits) !! k = Some p).
    { rewrite lookup_lsb_embed, Hp, lookup_take_ge by lia. reflexivity. }
    assert (Hij : (i <? H)%nat && (j <? W)%nat = true).
    { apply andb_true_intro. split; apply Nat.ltb_lt; lia. }
    unfold mbind at 1. unfold nd_getitem at 1. unfold embed_world at 1.
    cbn [arrays]. rewrite lookup_insert_eq. cbn [shape data].
    rewrite Hij. fold k. rewrite Hread.
    unfold mbind at 1. unfold lift at 1. rewrite (getitem_nat _ _ _ Hc).
    unfold mbind at 1. unfold lift at 1. rewrite (int_of_char_bit _ Hcbit).
    unfold mbind at 1. unfold nd_setitem. unfold embed_world at 1.
    cbn [arrays self]. rewrite lookup_insert_eq. cbn [shape data].
    rewrite Hij. fold k.
    destruct (Z.leb_spec 0 (Z.lor (Z.land p 254) (c - ch "0"))); [|lia].
    destruct (Z.leb_spec (Z.lor (Z.land p 254) (c - ch "0")) 255); [|lia].
    cbn [andb]. unfold mret, loop_post, inv, embed_inv. cbn [fst].
    split; [lia|]. split; [lia|].
    unfold embed_world. cbn [self arrays].
    rewrite insert_insert_eq, (lsb_embed_step _ _ _ _ _ Hp Hc). reflexivity.
Qed.

Lemma embed_row (i : nat) (st : Z * Z) (w : world GZREncoder) :
  (i < H)%nat ->
  inv (i * W)%nat st w ->
  loop_post (inv (S i * W)%nat) done
    (for_range_ret (seq 0 W) (embed_pixel stego bits i) st w).
Proof.
  intros Hi Hinv.
  replace (S i * W)%nat with (i * W + (0 + W))%nat by lia.
  apply (for_range_ret_inv (fun j => inv (i * W + j)%nat) done).
  - now rewrite Nat.add_0_r.
  - intros j st1 w1 Hj Hinv1.
    replace (i * W + S j)%nat with (S (i * W + j)) by lia.
    apply embed_pixel_step; [exact Hi|lia|exact Hinv1].
Qed.

Lemma embed_grid :
  loop_post (inv (H * W)%nat) done
    (for_range_ret (seq 0 H)
       (fun i st => for_range_ret (seq 0 W) (embed_pixel stego bits i) st)
       (0, 0) (embed_world self0 h0 stego (H, W) d0 bits 0)).
Proof.
  change (H * W)%nat with ((0 + H) * W)%nat.
  apply (for_range_ret_inv (fun i => inv (i * W)%nat) done).
  - repeat split. cbn. lia.
  - intros i st w Hi Hinv. apply embed_row; [lia|exact Hinv].
Qed.

End EmbedLoop.

Lemma lsb_embed_nil (pixels : list Z) : lsb_embed pixels [] = pixels.
Proof. now destruct pixels. Qed.

(** What [_embed_bits] does when the digits are binary: it never raises, it
    allocates one new array, and writes the digits there. *)
Lemma _embed_bits_spec (w : world GZREncoder) (bits : str) (a : ndarray) :
  arrays w !! image (self w) = Some a ->
  wf_array a ->
  is_bits bits ->
  _embed_bits bits w =
  (Ok (fresh (dom (arrays w))),
   mk_world (self w)
     (<[fresh (dom (arrays w)) :=
          mk_ndarray (shape a) (lsb_embed (data a) bits)]> (arrays w))).
Proof.
  intros Ha [Hlen Hrange] Hbits.
  destruct w as [self0 h0], a as [[H W] d0].
  cbn [self arrays shape data fst snd] in *.
  set (stego := fresh (dom h0)).
  unfold _embed_bits.
  unfold mbind at 1. unfold get_self. cbn [self].
  unfold mbind at 1. unfold nd_copy. cbn [self arrays]. rewrite Ha.
  fold stego.
  unfold mbind at 1. unfold nd_shape. cbn [arrays].
  rewrite lookup_insert_eq. cbn [shape].
  pose proof (embed_grid self0 h0 stego H W d0 bits Hlen Hrange Hbits)
    as Hgrid.
  unfold embed_world at 1 in Hgrid.
  rewrite take_0, lsb_embed_nil in Hgrid.
  unfold mbind.
  destruct (for_range_ret (seq 0 H)
              (fun i st =>
                 for_range_ret (seq 0 W) (embed_pixel stego bits i) st)
              (0, 0)
              (mk_world self0 (<[stego := mk_ndarray (H, W) d0]> h0)))
    as [[[st|r]| |] w'] eqn:Hloop; cbn [loop_post] in Hgrid;
    try contradiction.
  - destruct Hgrid as (_ & _ & ->). unfold mret, embed_world.
    now rewrite <- Hlen, lsb_embed_take.
  - destruct Hgrid as (-> & ->). reflexivity.
Qed.

Lemma _embed_bits_fresh (w : world GZREncoder) :
  arrays w !! fresh (dom (arrays w)) = None.
Proof. apply not_elem_of_dom, is_fresh. Qed.

Section ExtractLoop.

Variables (self0 : GZRDecoder) (h : gmap positive ndarray).
Variables (H W : nat) (d : list Z) (n : nat).
Hypothesis Hstego :
  h !! dec_stego_image self0 = Some (mk_ndarray (H, W) d).
Hypothesis Hlen : length d = (H * W)%nat.
Hypothesis Hn : (n <= H * W)%nat.

Let inv := extract_inv self0 h d n.
Let done := extract_done self0 h d n.

Lemma extract_pixel_step (i j : nat) (st : list str * Z)
  (w : world GZRDecoder) :
  (i < H)%nat -> (j < W)%nat ->
  inv (i * W + j)%nat st w ->
  loop_post (inv (S (i * W + j))) done
    (extract_pixel (dec_stego_image self0) 0 (Z.of_nat n) i j st w).
Proof.
  intros Hi Hj. destruct st as [bits bit_index].
  intros (Hbi & Hbits & Hk & ->). cbn [fst snd] in Hbi, Hbits.
  subst bit_index bits.
  set (k := (i * W + j)%nat) in *.
  assert (HkHW : (k < H * W)%nat) by (subst k; nia).
  unfold extract_pixel. rewrite !Z.geb_leb.
  destruct (Z.leb_spec 0 (Z.of_nat k)); [|lia]. cbn [andb].
  destruct (Z.ltb_spec (Z.of_nat k) (0 + Z.of_nat n)) as [Hlt|Hge].
  - destruct (lookup_lt_is_Some_2 d k) as [p Hp]; [lia|].
    assert (Hij : (i <? H)%nat && (j <? W)%nat = true).
    { apply andb_true_intro. split; apply Nat.ltb_lt; lia. }
    unfold mbind at 1. unfold mbind at 1. unfold nd_getitem.
    cbn [arrays]. rewrite Hstego. cbn [shape data].
    rewrite Hij. fold k. rewrite Hp. unfold mret at 1.
    assert (Hbits' : lsb_strs (take k d) ++ [str_of_lsb (Z.land p 1)]
                     = lsb_strs (take (S k) d)).
    { unfold lsb_strs. rewrite (take_S_r _ _ _ Hp), map_app. reflexivity. }
    rewrite Hbits'.
    destruct (Z.leb_spec (0 + Z.of_nat n) (Z.of_nat k + 1)) as [Hret|Hgo].
    + unfold mret, loop_post, done, extract_done.
      replace n with (S k) by lia. now split.
    + unfold mret, loop_post, inv, extract_inv. cbn [fst snd].
      repeat split; lia.
  - assert (k = 0%nat /\ n = 0%nat) as [Hk0 ->] by lia.
    unfold mbind, mret.
    destruct (Z.leb_spec (0 + Z.of_nat 0) (Z.of_nat k + 1)); [|lia].
    unfold loop_post, done, extract_done. rewrite Hk0. now split.
Qed.

Lemma extract_row (i : nat) (st : list str * Z) (w : world GZRDecoder) :
  (i < H)%nat ->
  inv (i * W)%nat st w ->
  loop_post (inv (S i * W)%nat) done
    (for_range_ret (seq 0 W)
       (extract_pixel (dec_stego_image self0) 0 (Z.of_nat n) i) st w).
Proof.
  intros Hi Hinv.
  replace (S i * W)%nat with (i * W + (0 + W))%nat by lia.
  apply (for_range_ret_inv (fun j => inv (i * W + j)%nat) done).
  - now rewrite Nat.add_0_r.
  - intros j st1 w1 Hj Hinv1.
    replace (i * W + S j)%nat with (S (i * W + j)) by lia.
    apply extract_pixel_step; [exact Hi|lia|exact Hinv1].
Qed.

Lemma extract_grid :
  loop_post (inv (H * W)%nat) done
    (for_range_ret (seq 0 H)
       (fun i st =>
          for_range_ret (seq 0 W)
            (extract_pixel (dec_stego_image self0) 0 (Z.of_nat n) i) st)
       ([], 0) (mk_world self0 h)).
Proof.
  change (H * W)%nat with ((0 + H) * W)%nat.
  apply (for_range_ret_inv (fun i => inv (i * W)%nat) done).
  - repeat split. now left.
  - intros i st w Hi Hinv. apply extract_row; [lia|exact Hinv].
Qed.

(** [_extract_bits(0, n)] reads the first [n] pixels and leaves the world
    as it is. *)
Lemma _extract_bits_spec :
  _extract_bits 0 (Z.of_nat n) (mk_world self0 h)
  = (Ok (concat (lsb_strs (take n d))), mk_world self0 h).
Proof.
  unfold _extract_bits.
  unfold mbind at 1. unfold get_self. cbn [self].
  unfold mbind at 1. unfold nd_shape. cbn [arrays]. rewrite Hstego.
  cbn [shape].
  pose proof extract_grid as Hgrid.
  unfold mbind.
  destruct (for_range_ret (seq 0 H)
              (fun i st =>
                 for_range_ret (seq 0 W)
                   (extract_pixel (dec_stego_image self0) 0 (Z.of_nat n) i)
                   st)
              ([], 0) (mk_world self0 h))
    as [[[[bits bit_index]|r]| |] w'] eqn:Hloop; cbn [loop_post] in Hgrid;
    try contradiction.
  - destruct Hgrid as (_ & Hbits & Hk & ->). cbn [fst] in Hbits.
    assert (n = 0%nat) as -> by lia.
    assert (HW0 : (H * W = 0)%nat) by lia.
    rewrite HW0 in Hbits. subst bits. reflexivity.
  - destruct Hgrid as (-> & ->). reflexivity.
Qed.

End ExtractLoop.

Lemma lsb_of_new_pixel (p c : Z) :
  c = ch "0" \/ c = ch "1" ->
  str_of_lsb (Z.land (Z.lor (Z.land p 254) (c - ch "0")) 1) = [c].
Proof.
  intros Hc.
  rewrite Z.land_lor_distr_l, <- Z.land_assoc.
  change (Z.land 254 1) with 0. rewrite Z.land_0_r, Z.lor_0_l.
  now destruct Hc as [-> | ->].
Qed.

Lemma extract_of_embed (frame : str) :
  is_bits frame ->
  forall pixels : list Z,
    (length frame <= length pixels)%nat ->
    concat (lsb_strs (take (length frame) (lsb_embed pixels frame))) = frame.
Proof.
  induction 1 as [|c frame Hc _ IH]; intros pixels Hlen.
  - reflexivity.
  - destruct pixels as [|p pixels]; [cbn in Hlen; lia|].
    cbn [lsb_embed length take lsb_strs map concat].
    rewrite (lsb_of_new_pixel p c Hc). cbn [app]. f_equal.
    apply IH. cbn in Hlen. lia.
Qed.

End Channel.

Section Encode.

Lemma is_bits_bin_digits (p : positive) : is_bits (bin_digits p).
Proof.
  induction p as [p IH|p IH|]; cbn [bin_digits].
  - apply is_bits_app; [exact IH|constructor; [auto|constructor]].
  - apply is_bits_app; [exact IH|constructor; [auto|constructor]].
  - constructor; [auto|constructor].
Qed.

Lemma is_bits_format_032b (n : Z) : 0 <= n -> is_bits (format_032b n).
Proof.
  intros Hn. destruct n as [|p|p]; [| |lia]; cbn [format_032b].
  - apply is_bits_repeat0.
  - apply is_bits_app; [apply is_bits_repeat0|apply is_bits_bin_digits].
Qed.

(** The two ways [encode_message] ends: the capacity check raises before
    [_embed_bits] is called, or the frame is embedded in a new array. *)
Lemma encode_message_spec (w : world GZREncoder) (message : str)
  (a : ndarray) :
  arrays w !! image (self w) = Some a ->
  wf_array a ->
  let encoded := text_to_gzr message in
  let required := len encoded / 8 + 1 in
  let capacity :=
    Z.of_nat (shape a).1 * Z.of_nat (shape a).2 / 8 in
  let self1 :=
    mk_GZREncoder (image (self w)) (stego_image (self w)) (Some encoded) in
  let stego := fresh (dom (arrays w)) in
  encode_message message w =
  if required >? capacity then (Raise ValueError, mk_world self1 (arrays w))
  else
    (Ok (mk_stats (len message) (len encoded)
           (verify_no_111_pattern encoded).1
           (verify_no_111_pattern encoded).2),
     mk_world (mk_GZREncoder (image (self w)) (Some stego) (Some encoded))
       (<[stego := mk_ndarray (shape a)
                     (lsb_embed (data a)
                        (format_032b (len encoded) ++ encoded))]>
          (arrays w))).
Proof.
  intros Ha Hwf. cbn zeta.
  destruct w as [self0 h0]. cbn [self arrays] in *.
  unfold encode_message.
  unfold mbind at 1. unfold get_self at 1. cbn [self].
  unfold mbind at 1. unfold set_self at 1. cbn [arrays].
  unfold mbind at 1. unfold get_capacity.
  unfold mbind at 1. unfold get_self at 1. cbn [self image].
  unfold mbind at 1. unfold nd_shape at 1. cbn [arrays]. rewrite Ha.
  destruct (shape a) as [H W] eqn:Hshape. unfold mret at 1. cbn [fst snd].
  destruct (len (text_to_gzr message) / 8 + 1 >? Z.of_nat H * Z.of_nat W / 8);
    [reflexivity|].
  destruct (verify_no_111_pattern (text_to_gzr message)) as [valid count_111].
  assert (Hfull : is_bits (format_032b (len (text_to_gzr message))
                           ++ text_to_gzr message)).
  { apply is_bits_app; [|apply text_to_gzr_bits].
    apply is_bits_format_032b. unfold len. lia. }
  unfold mbind at 1.
  rewrite (_embed_bits_spec
             (mk_world
                (mk_GZREncoder (image self0) (stego_image self0)
                   (Some (text_to_gzr message))) h0) _ a Ha Hwf Hfull).
  cbn [self arrays].
  unfold mbind at 1. unfold get_self. cbn [self].
  unfold mbind at 1. unfold set_self. cbn [arrays image encoded_bits].
  unfold mret. rewrite Hshape. reflexivity.
Qed.

End Encode.

Section Count.

Lemma count_from_nonneg (sub s : str) :
  forall skip : nat, 0 <= count_from sub s skip.
Proof.
  induction s as [|c s IH]; intros skip; cbn [count_from]; [lia|].
  destruct skip; [|apply IH].
  destruct (startswith sub (c :: s)); [|apply IH].
  pose proof (IH (length sub - 1)%nat). lia.
Qed.

Lemma startswith_app (sub post : str) : startswith sub (sub ++ post) = true.
Proof.
  induction sub as [|a sub IH]; cbn [startswith app]; [now destruct post|].
  now rewrite Z.eqb_refl, IH.
Qed.

(** An occurrence of [sub] is counted: where the count is 0, [sub] does
    not occur. *)
Lemma count_from_occurrence (sub : str) (pre post : str) :
  sub <> [] -> 0 < count_from sub (pre ++ sub ++ post) 0.
Proof.
  intros Hsub. induction pre as [|c pre IH].
  - destruct sub as [|a sub]; [contradiction|].
    cbn [app count_from].
    change (a :: sub ++ post) with ((a :: sub) ++ post).
    rewrite startswith_app.
    pose proof (count_from_nonneg (a :: sub) (sub ++ post)
                  (length (a :: sub) - 1)). lia.
  - cbn [app count_from].
    destruct (startswith sub (c :: pre ++ sub ++ post)); [|exact IH].
    pose proof (count_from_nonneg sub (pre ++ sub ++ post)
                  (length sub - 1)). lia.
Qed.

Lemma str_count_0_no_occurrence (s sub : str) :
  sub <> [] -> str_count s sub = 0 ->
  ~ exists pre post, s = pre ++ sub ++ post.
Proof.
  intros Hsub Hcount (pre & post & ->).
  pose proof (count_from_occurrence sub pre post Hsub) as Hpos.
  unfold str_count in Hcount. destruct sub; [contradiction|]. lia.
Qed.

End Count.

(** * The properties of the specification *)

Section Claims.

(** The weights used by the text codec. *)
Example generate_tribonacci_255 :
  generate_tribonacci 255 = [1; 2; 4; 7; 13; 24; 44; 81; 149].
Proof. reflexivity. Qed.

(** The docstring example of [decimal_to_gzr] and [gzr_to_decimal]. *)
Example decimal_to_gzr_65 :
  decimal_to_gzr 65 None = map ch ["1"; "0"; "0"; "1"; "1"; "0"; "1"]%char /\
  gzr_to_decimal (decimal_to_gzr 65 None) None = 65.
Proof. split; reflexivity. Qed.

(** C1. The round trip [gzr_to_decimal(decimal_to_gzr(n, seq), seq) == n]
    is broken at [n = 2] for the threshold-255 sequence: the greedy digits
    of 2 are "010000000", the left strip removes the digit of weight 1, and
    the remaining "10000000" decodes to 1. *)
Theorem decimal_to_gzr_roundtrip_at_2 :
  let seq := generate_tribonacci 255 in
  greedy_digits 2 seq
  = map ch ["0"; "1"; "0"; "0"; "0"; "0"; "0"; "0"; "0"]%char /\
  decimal_to_gzr 2 (Some seq)
  = map ch ["1"; "0"; "0"; "0"; "0"; "0"; "0"; "0"]%char /\
  gzr_to_decimal (decimal_to_gzr 2 (Some seq)) (Some seq) = 1.
Proof. repeat split; reflexivity. Qed.

(** On [[1, 255]] the integer round trip holds exactly for the [n] whose
    greedy digit of weight 1 is '1', that is, when the strip removes
    nothing. *)
Lemma decimal_to_gzr_roundtrip_iff (n : Z) :
  1 <= n <= 255 ->
  let seq := generate_tribonacci 255 in
  gzr_to_decimal (decimal_to_gzr n (Some seq)) (Some seq) = n <->
  head (greedy_digits n seq) = Some (ch "1").
Proof.
  intros Hn. cbn zeta.
  pose (check := fun n =>
    Bool.eqb
      (gzr_to_decimal
         (decimal_to_gzr n (Some (generate_tribonacci 255)))
         (Some (generate_tribonacci 255)) =? n)
      (bool_decide (head (greedy_digits n (generate_tribonacci 255))
                    = Some (ch "1")))).
  assert (Hc : check n = true)
    by (apply (forallb_Z_upto check 1 255); [vm_compute; reflexivity|lia]).
  unfold check in Hc. apply Bool.eqb_prop in Hc.
  rewrite <- Z.eqb_eq, Hc. apply bool_decide_eq_true.
Qed.

(** C2. For a text over code points [[0, 255]], decoding the encoded text
    gives the text without its characters of code point 0; over
    [[1, 255]] the round trip is the identity. *)
Theorem gzr_to_text_text_to_gzr (text : str) :
  Forall (fun c => 0 <= c <= 255) text ->
  gzr_to_text (text_to_gzr text) = Ok (filter (fun c => c <> 0) text) /\
  (Forall (fun c => 1 <= c) text -> gzr_to_text (text_to_gzr text) = Ok text).
Proof.
  intros Htext.
  assert (Hrt : gzr_to_text (text_to_gzr text)
                = Ok (filter (fun c => c <> 0) text)).
  { unfold gzr_to_text. cbn zeta. rewrite text_to_gzr_slots.
    now rewrite (gzr_to_text_slots text Htext []). }
  split; [exact Hrt|].
  intros Hpos. rewrite Hrt. f_equal.
  clear Hrt Htext. induction Hpos as [|c text Hc _ IH]; [reflexivity|].
  rewrite filter_cons_True by lia. now rewrite IH.
Qed.

Lemma gzr_to_text_text_to_gzr_witness :
  Forall (fun c => 0 <= c <= 255) [72; 0; 105] /\
  gzr_to_text (text_to_gzr [72; 0; 105]) = Ok [72; 105].
Proof.
  assert (H : Forall (fun c => 0 <= c <= 255) [72; 0; 105])
    by (repeat constructor; lia).
  split; [exact H|].
  exact (proj1 (gzr_to_text_text_to_gzr [72; 0; 105] H)).
Defined.

(** C4. For [n] in [[1, 255]] the digit string of [decimal_to_gzr] on the
    threshold-255 sequence, before any padding, has no substring "111", and
    [verify_no_111_pattern] returns [(True, 0)] on it. *)
Theorem decimal_to_gzr_no_111 (n : Z) :
  1 <= n <= 255 ->
  let s := decimal_to_gzr n (Some (generate_tribonacci 255)) in
  verify_no_111_pattern s = (true, 0) /\
  ~ exists pre post, s = pre ++ [ch "1"; ch "1"; ch "1"] ++ post.
Proof.
  intros Hn. cbn zeta.
  pose (check := fun n =>
    str_count (decimal_to_gzr n (Some (generate_tribonacci 255)))
      [ch "1"; ch "1"; ch "1"] =? 0).
  assert (Hc : check n = true)
    by (apply (forallb_Z_upto check 1 255); [vm_compute; reflexivity|lia]).
  unfold check in Hc. apply Z.eqb_eq in Hc.
  split.
  - unfold verify_no_111_pattern. cbn zeta. now rewrite Hc.
  - apply str_count_0_no_occurrence; [discriminate|exact Hc].
Qed.

Lemma decimal_to_gzr_no_111_witness :
  1 <= 7 <= 255 /\
  verify_no_111_pattern (decimal_to_gzr 7 (Some (generate_tribonacci 255)))
  = (true, 0).
Proof.
  split; [lia|]. exact (proj1 (decimal_to_gzr_no_111 7 ltac:(lia))).
Defined.

(** C5, as stated: at threshold 0 the function returns, with any fuel, and
    what it returns is the empty list, not the seed. *)
Lemma generate_tribonacci_0_no_seed :
  generate_tribonacci_fuel 0 0 = Ok [] /\
  generate_tribonacci_fuel 1 0 = Ok [] /\
  generate_tribonacci 0 = [] /\
  ~ [1; 2; 4] `prefix_of` generate_tribonacci 0.
Proof.
  split; [reflexivity|]. split; [reflexivity|]. split; [reflexivity|].
  intros [k Hk]. discriminate Hk.
Qed.

(** C5, amended. For a threshold of at least 1, [generate_tribonacci]
    returns (the loop ends, whatever fuel above the bound is given) a list
    that begins with the seed [[1, 2, 4]], also when the threshold is below
    4; for a threshold below 1 it returns the empty list, before the loop
    and so with any fuel. *)
Theorem generate_tribonacci_seed (threshold : Z) :
  (1 <= threshold ->
   (forall fuel, (Z.to_nat threshold < fuel)%nat ->
      generate_tribonacci_fuel fuel threshold
      = Ok (generate_tribonacci threshold)) /\
   [1; 2; 4] `prefix_of` generate_tribonacci threshold) /\
  (threshold < 1 ->
   (forall fuel, generate_tribonacci_fuel fuel threshold = Ok []) /\
   generate_tribonacci threshold = []).
Proof.
  split.
  - intros Hge. split.
    + intros fuel. apply generate_tribonacci_fuel_enough.
    + now apply generate_tribonacci_inv.
  - intros Hlt. split.
    + intros fuel. unfold generate_tribonacci_fuel.
      destruct (Z.ltb_spec threshold 1); [reflexivity|lia].
    + now apply generate_tribonacci_below.
Qed.

Lemma generate_tribonacci_seed_witness :
  1 <= 2 /\
  generate_tribonacci_fuel 3 2 = Ok (generate_tribonacci 2) /\
  [1; 2; 4] `prefix_of` generate_tribonacci 2 /\
  -5 < 1 /\
  generate_tribonacci_fuel 0 (-5) = Ok [].
Proof.
  split; [lia|].
  destruct (proj1 (generate_tribonacci_seed 2) ltac:(lia)) as [Hfuel Hpre].
  split; [apply Hfuel; cbn; lia|]. split; [exact Hpre|].
  split; [lia|].
  exact (proj1 (proj2 (generate_tribonacci_seed (-5)) ltac:(lia)) 0%nat).
Defined.

(** C6. For a threshold of at least 1, [generate_tribonacci] returns (the
    loop ends, whatever fuel above the bound is given) a non-empty sequence
    whose terms are strictly increasing. *)
Theorem generate_tribonacci_increasing (threshold : Z) :
  1 <= threshold ->
  (forall fuel, (Z.to_nat threshold < fuel)%nat ->
     generate_tribonacci_fuel fuel threshold
     = Ok (generate_tribonacci threshold)) /\
  generate_tribonacci threshold <> [] /\
  increasing (generate_tribonacci threshold).
Proof.
  intros Hge.
  destruct (generate_tribonacci_inv threshold Hge) as [(Hlen & _ & Hinc) _].
  split; [intros fuel; apply generate_tribonacci_fuel_enough|].
  split; [|exact Hinc].
  intros Hnil. rewrite Hnil in Hlen. cbn in Hlen. lia.
Qed.

Lemma generate_tribonacci_increasing_witness :
  1 <= 255 /\
  generate_tribonacci 255 <> [] /\ increasing (generate_tribonacci 255).
Proof.
  split; [lia|].
  exact (proj2 (generate_tribonacci_increasing 255 ltac:(lia))).
Defined.

(** C9. For a text over code points [[0, 255]], [text_to_gzr] returns
    [9 * len(text)] digits: the concatenation, in text order, of one slot
    per character, the character's GZR string (of at most 9 digits)
    left-padded with '0' to width 9. *)
Theorem text_to_gzr_slots_of_9 (text : str) :
  Forall (fun c => 0 <= c <= 255) text ->
  let gzr c := decimal_to_gzr c (Some (generate_tribonacci 255)) in
  length (text_to_gzr text) = (9 * length text)%nat /\
  text_to_gzr text
  = concat (map (fun c => repeat (ch "0") (9 - length (gzr c)) ++ gzr c) text)
  /\ Forall (fun c => (length (gzr c) <= 9)%nat) text.
Proof.
  intros _. cbn zeta. rewrite text_to_gzr_slots.
  split; [apply length_concat_slots|]. split.
  - f_equal. apply map_ext. intros c. apply slot_spec.
  - apply Forall_forall. intros c _. apply slot_spec.
Qed.

Lemma text_to_gzr_slots_of_9_witness :
  Forall (fun c => 0 <= c <= 255) [72; 105] /\
  length (text_to_gzr [72; 105]) = (9 * length [72; 105])%nat.
Proof.
  assert (H : Forall (fun c => 0 <= c <= 255) [72; 105])
    by (repeat constructor; lia).
  split; [exact H|].
  exact (proj1 (text_to_gzr_slots_of_9 [72; 105] H)).
Defined.

(** C10. For every integer [n] and every weight sequence (given or
    defaulted), [decimal_to_gzr] returns a non-empty string of digits '0'
    and '1' that is "0" or begins with '1'. *)
Theorem decimal_to_gzr_leading_digit (n : Z)
  (tribonacci_seq : option (list Z)) :
  let s := decimal_to_gzr n tribonacci_seq in
  s <> [] /\ is_bits s /\ (s = [ch "0"] \/ exists t, s = ch "1" :: t).
Proof.
  cbn zeta.
  destruct (decimal_to_gzr_shape n tribonacci_seq) as (Hb & Hs & _).
  cbn zeta in Hb, Hs.
  split; [|split; [exact Hb|exact Hs]].
  destruct Hs as [-> | [t ->]]; discriminate.
Qed.

(** C8. On an H-by-W grid of 8-bit pixels and a string of binary digits,
    [_embed_bits] does not raise; it returns a new array of the same shape
    in which the pixel at [(i, j)], of row-major index [k = i * W + j], is
    [(old & 0xFE) | int(bits[k])] when [k < min(len(bits), H * W)] and the
    old pixel otherwise; every array that existed before, the input grid
    among them, is as it was. *)
Theorem embed_bits_pixels (w : world GZREncoder) (bits : str)
  (a : ndarray) :
  arrays w !! image (self w) = Some a ->
  wf_array a ->
  is_bits bits ->
  exists (stego : positive) (a' : ndarray),
    _embed_bits bits w
    = (Ok stego, mk_world (self w) (<[stego := a']> (arrays w))) /\
    arrays w !! stego = None /\
    (<[stego := a']> (arrays w)) !! image (self w) = Some a /\
    shape a' = shape a /\
    length (data a') = length (data a) /\
    forall i j : nat,
      (i < (shape a).1)%nat -> (j < (shape a).2)%nat ->
      let k := (i * (shape a).2 + j)%nat in
      exists p : Z,
        data a !! k = Some p /\
        ((k < Nat.min (length bits) ((shape a).1 * (shape a).2))%nat ->
         exists c b : Z,
           bits !! k = Some c /\ int_of_char c = Ok b /\
           data a' !! k = Some (Z.lor (Z.land p 254) b)) /\
        (~ (k < Nat.min (length bits) ((shape a).1 * (shape a).2))%nat ->
         data a' !! k = Some p).
Proof.
  intros Ha Hwf Hbits.
  pose proof (_embed_bits_fresh w) as Hfresh.
  exists (fresh (dom (arrays w))),
    (mk_ndarray (shape a) (lsb_embed (data a) bits)).
  split; [now apply _embed_bits_spec|].
  split; [exact Hfresh|].
  split.
  { rewrite lookup_insert_ne; [exact Ha|]. intros Heq.
    rewrite Heq in Hfresh. rewrite Hfresh in Ha. discriminate. }
  split; [reflexivity|].
  split; [apply length_lsb_embed|].
  destruct Hwf as [Hlen _].
  intros i j Hi Hj k.
  assert (Hk : (k < (shape a).1 * (shape a).2)%nat) by (subst k; nia).
  destruct (lookup_lt_is_Some_2 (data a) k) as [p Hp]; [lia|].
  exists p. split; [exact Hp|]. cbn [data].
  rewrite lookup_lsb_embed, Hp. split.
  - intros Hmin.
    destruct (lookup_lt_is_Some_2 bits k) as [c Hc]; [lia|].
    exists c, (c - ch "0"). rewrite Hc. split; [reflexivity|].
    split; [|reflexivity].
    apply int_of_char_bit.
    unfold is_bits in Hbits. rewrite Forall_forall in Hbits.
    apply Hbits. eapply list_elem_of_lookup_2; eauto.
  - intros Hmin. now rewrite lookup_ge_None_2 by lia.
Qed.

Lemma embed_bits_pixels_witness :
  arrays demo_world !! image (self demo_world) = Some demo_image /\
  wf_array demo_image /\
  is_bits demo_bits /\
  exists (stego : positive) (a' : ndarray),
    _embed_bits demo_bits demo_world
    = (Ok stego, mk_world (self demo_world) (<[stego := a']> (arrays demo_world)))
    /\ data a' !! 0%nat = Some 11 /\ data a' !! 5%nat = Some 15.
Proof.
  assert (Ha : arrays demo_world !! image (self demo_world) = Some demo_image)
    by reflexivity.
  assert (Hwf : wf_array demo_image)
    by (split; [reflexivity|repeat constructor; cbn; lia]).
  assert (Hb : is_bits demo_bits)
    by (repeat (constructor; [auto|]); constructor).
  split; [exact Ha|]. split; [exact Hwf|]. split; [exact Hb|].
  destruct (embed_bits_pixels demo_world demo_bits demo_image Ha Hwf Hb)
    as (stego & a' & Heq & _ & _ & _ & _ & Hpix).
  exists stego, a'. split; [exact Heq|]. split.
  - destruct (Hpix 0%nat 0%nat ltac:(cbn; lia) ltac:(cbn; lia))
      as (p & Hp & Hin & _).
    cbn in Hp. injection Hp as <-.
    destruct (Hin ltac:(cbn; lia)) as (c & b & Hc & Hint & Hpx).
    cbn in Hc. injection Hc as <-.
    cbn in Hint. injection Hint as <-. exact Hpx.
  - destruct (Hpix 1%nat 2%nat ltac:(cbn; lia) ltac:(cbn; lia))
      as (p & Hp & _ & Hout).
    cbn in Hp. injection Hp as <-.
    exact (Hout ltac:(cbn; lia)).
Defined.

(** C3. For an H-by-W grid of 8-bit pixels and a frame of at most [H * W]
    binary digits, [_extract_bits(0, len(frame))] on the grid returned by
    [_embed_bits] gives the frame back. *)
Theorem extract_bits_embed_bits (w : world GZREncoder) (frame : str)
  (a : ndarray) :
  arrays w !! image (self w) = Some a ->
  wf_array a ->
  is_bits frame ->
  (length frame <= (shape a).1 * (shape a).2)%nat ->
  exists (stego : positive) (w' : world GZREncoder),
    _embed_bits frame w = (Ok stego, w') /\
    forall (bits message : option str),
      let decoder := mk_GZRDecoder stego bits message in
      _extract_bits 0 (len frame) (mk_world decoder (arrays w'))
      = (Ok frame, mk_world decoder (arrays w')).
Proof.
  intros Ha Hwf Hbits Hlen.
  eexists _, _. split; [exact (_embed_bits_spec w frame a Ha Hwf Hbits)|].
  intros eb msg decoder. cbn [arrays].
  destruct Hwf as [Hdata _]. destruct a as [[H W] d0].
  cbn [shape data fst snd] in *.
  rewrite (_extract_bits_spec decoder _ H W (lsb_embed d0 frame)
             (length frame)).
  - rewrite extract_of_embed by (auto; lia). reflexivity.
  - apply lookup_insert_eq.
  - now rewrite length_lsb_embed.
  - exact Hlen.
Qed.

Lemma extract_bits_embed_bits_witness :
  exists w' : world GZREncoder,
    _embed_bits demo_bits demo_world = (Ok 2%positive, w') /\
    _extract_bits 0 4
      (mk_world (mk_GZRDecoder 2%positive None None) (arrays w'))
    = (Ok demo_bits,
       mk_world (mk_GZRDecoder 2%positive None None) (arrays w')).
Proof.
  assert (Ha : arrays demo_world !! image (self demo_world) = Some demo_image)
    by reflexivity.
  assert (Hwf : wf_array demo_image)
    by (split; [reflexivity|repeat constructor; cbn; lia]).
  assert (Hb : is_bits demo_bits)
    by (repeat (constructor; [auto|]); constructor).
  destruct (extract_bits_embed_bits demo_world _ demo_image Ha Hwf Hb
              ltac:(cbn; lia)) as (stego & w' & Heq & Hex).
  exists w'.
  assert (Hstego : stego = 2%positive).
  { vm_compute in Heq. now injection Heq as <- _. }
  subst stego. split; [exact Heq|]. exact (Hex None None).
Defined.

(** C7. On an H-by-W grid of 8-bit pixels, [encode_message] raises (a
    [ValueError]) exactly when [len(payloadBits) // 8 + 1 > H * W // 8],
    the payload being counted without the 32-digit header; when it raises,
    no array has been written or created; otherwise it returns, the
    embedding having raised nothing. *)
Theorem encode_message_capacity (w : world GZREncoder) (message : str)
  (a : ndarray) :
  arrays w !! image (self w) = Some a ->
  wf_array a ->
  let required := len (text_to_gzr message) / 8 + 1 in
  let capacity := Z.of_nat (shape a).1 * Z.of_nat (shape a).2 / 8 in
  let r := encode_message message w in
  ((exists e, r.1 = Raise e) <-> required > capacity) /\
  (forall e, r.1 = Raise e -> e = ValueError /\ arrays r.2 = arrays w) /\
  (~ required > capacity -> exists st, r.1 = Ok st).
Proof.
  intros Ha Hwf. cbn zeta.
  rewrite (encode_message_spec w message a Ha Hwf). cbn zeta.
  destruct (Z.gtb_spec (len (text_to_gzr message) / 8 + 1)
              (Z.of_nat (shape a).1 * Z.of_nat (shape a).2 / 8))
    as [Hgt|Hle]; cbn [fst snd arrays].
  - split; [split; [lia|eauto]|].
    split; [|lia].
    intros e He. injection He as <-. now split.
  - split; [split; [intros [e He]; discriminate|lia]|].
    split; [intros e He; discriminate|eauto].
Qed.

Lemma encode_message_capacity_witness :
  (exists e, (encode_message [72; 105] small_world).1 = Raise e) /\
  (exists st, (encode_message [72] small_world).1 = Ok st).
Proof.
  assert (Ha : arrays small_world !! image (self small_world)
               = Some (mk_ndarray (4, 4)%nat (repeat 200 16)))
    by reflexivity.
  assert (Hwf : wf_array (mk_ndarray (4, 4)%nat (repeat 200 16)))
    by (split; [reflexivity|repeat constructor; cbn; lia]).
  split.
  - apply (proj1 (encode_message_capacity small_world [72; 105] _ Ha Hwf)).
    vm_compute. reflexivity.
  - apply (proj2 (proj2 (encode_message_capacity small_world [72] _ Ha Hwf))).
    vm_compute. discriminate.
Defined.

End Claims.

(** * Further properties: the sequence generator *)

Section GeneratorMore.

(** An invariant of the loop of [generate_tribonacci] that is kept when the
    sum of the last three terms is appended holds for the result; and the
    loop ends only when that sum exceeds [max_value] or the last term has
    reached it. *)
Lemma tribonacci_loop_preserves (P : list Z -> Prop) (max_value : Z) :
  (forall pre a b c,
     P (pre ++ [a; b; c]) -> c < max_value -> c + b + a <= max_value ->
     P ((pre ++ [a; b; c]) ++ [c + b + a])) ->
  forall (fuel : nat) (l r : list Z),
    (3 <= length l)%nat -> P l ->
    tribonacci_loop fuel max_value l = Ok r ->
    P r /\
    exists pre a b c,
      r = pre ++ [a; b; c] /\ (max_value <= c \/ max_value < c + b + a).
Proof.
  intros Hstep.
  induction fuel as [|fuel IH]; intros l r Hlen HP Hr; [discriminate|].
  destruct (last3_split l Hlen) as (pre & a & b & c & ->).
  destruct (getitem_last3 pre a b c) as (H1 & H2 & H3).
  rewrite tribonacci_loop_S, H1 in Hr. cbn [obind] in Hr.
  destruct (Z.ltb_spec c max_value) as [Hlt|Hge].
  - rewrite H2, H3 in Hr. cbn [obind] in Hr.
    destruct (Z.gtb_spec (c + b + a) max_value) as [Hgt|Hle].
    + injection Hr as <-. split; [exact HP|].
      exists pre, a, b, c. split; [reflexivity|lia].
    + apply IH in Hr; [exact Hr| |now apply Hstep].
      rewrite !length_app. cbn. lia.
  - injection Hr as <-. split; [exact HP|].
    exists pre, a, b, c. split; [reflexivity|lia].
Qed.

Lemma generate_tribonacci_loop (max_value : Z) :
  1 <= max_value ->
  tribonacci_loop (S (Z.to_nat max_value)) max_value [1; 2; 4]
  = Ok (generate_tribonacci max_value).
Proof.
  intros Hge.
  pose proof (generate_tribonacci_fuel_enough max_value
                (S (Z.to_nat max_value)) ltac:(lia)) as Hfuel.
  unfold generate_tribonacci_fuel in Hfuel.
  destruct (Z.ltb_spec max_value 1); [lia|exact Hfuel].
Qed.

Lemma generate_tribonacci_rec (max_value : Z) (i : nat) (x y z t : Z) :
  generate_tribonacci max_value !! i = Some x ->
  generate_tribonacci max_value !! (i + 1)%nat = Some y ->
  generate_tribonacci max_value !! (i + 2)%nat = Some z ->
  generate_tribonacci max_value !! (i + 3)%nat = Some t ->
  t = x + y + z.
Proof.
  destruct (Z.ltb_spec max_value 1) as [Hlt|Hge].
  { rewrite generate_tribonacci_below by lia. discriminate. }
  pose (P := fun l : list Z =>
    forall (i : nat) (x y z t : Z),
      l !! i = Some x -> l !! (i + 1)%nat = Some y ->
      l !! (i + 2)%nat = Some z -> l !! (i + 3)%nat = Some t ->
      t = x + y + z).
  enough (HP : P (generate_tribonacci max_value)) by apply HP.
  assert (Hstep : forall pre a b c,
             P (pre ++ [a; b; c]) -> c < max_value ->
             c + b + a <= max_value ->
             P ((pre ++ [a; b; c]) ++ [c + b + a])).
  { clear. intros pre a b c HP _ _ i x y z t Hx Hy Hz Ht.
    assert (Hlen : length (pre ++ [a; b; c]) = (length pre + 3)%nat)
      by (rewrite length_app; reflexivity).
    destruct (decide (i + 3 < length pre + 3)%nat) as [Hin|Hout].
    - rewrite lookup_app_l in Hx, Hy, Hz, Ht by lia.
      eapply HP; eauto.
    - pose proof (lookup_lt_Some _ _ _ Ht) as Hi.
      rewrite length_app, Hlen in Hi. cbn in Hi.
      assert (i = length pre) as -> by lia.
      rewrite lookup_app_r in Ht by lia.
      rewrite lookup_app_l in Hx, Hy, Hz by lia.
      rewrite lookup_app_r in Hx, Hy, Hz by lia.
      rewrite Hlen in Ht.
      replace (length pre + 3 - (length pre + 3))%nat with 0%nat in Ht by lia.
      replace (length pre - length pre)%nat with 0%nat in Hx by lia.
      replace (length pre + 1 - length pre)%nat with 1%nat in Hy by lia.
      replace (length pre + 2 - length pre)%nat with 2%nat in Hz by lia.
      cbn in Hx, Hy, Hz, Ht.
      injection Hx as <-. injection Hy as <-. injection Hz as <-.
      injection Ht as <-. lia. }
  assert (HP0 : P [1; 2; 4]).
  { intros j x0 y0 z0 t0 _ _ _ Ht0.
    apply lookup_lt_Some in Ht0. cbn in Ht0. lia. }
  exact (proj1 (tribonacci_loop_preserves P max_value Hstep _ [1; 2; 4] _
                  ltac:(cbn; lia) HP0
                  (generate_tribonacci_loop max_value Hge))).
Qed.

(** X1. The terms obey the Tribonacci recurrence. *)
Theorem generate_tribonacci_recurrence (max_value : Z) (i : nat)
  (x y z t : Z) :
  generate_tribonacci max_value !! i = Some x ->
  generate_tribonacci max_value !! (i + 1)%nat = Some y ->
  generate_tribonacci max_value !! (i + 2)%nat = Some z ->
  generate_tribonacci max_value !! (i + 3)%nat = Some t ->
  t = x + y + z.
Proof. apply generate_tribonacci_rec. Qed.

Lemma generate_tribonacci_recurrence_witness :
  generate_tribonacci 255 !! 5%nat = Some 24 /\
  generate_tribonacci 255 !! 8%nat = Some 149.
Proof.
  split; [reflexivity|].
  assert (H : exists t, generate_tribonacci 255 !! (5 + 3)%nat = Some t)
    by (eexists; reflexivity).
  destruct H as [t Ht].
  rewrite (generate_tribonacci_recurrence 255 5 24 44 81 t
             eq_refl eq_refl eq_refl Ht) in Ht.
  exact Ht.
Defined.

Lemma generate_tribonacci_le (max_value : Z) :
  (4 <= max_value -> Forall (fun t => t <= max_value)
                       (generate_tribonacci max_value)) /\
  (1 <= max_value <= 4 -> generate_tribonacci max_value = [1; 2; 4]).
Proof.
  split.
  - intros Hge.
    assert (Hstep : forall pre a b c,
               Forall (fun t => t <= max_value) (pre ++ [a; b; c]) ->
               c < max_value -> c + b + a <= max_value ->
               Forall (fun t => t <= max_value)
                 ((pre ++ [a; b; c]) ++ [c + b + a])).
    { intros pre a b c HP _ Hle.
      apply Forall_app. split; [exact HP|].
      constructor; [exact Hle|constructor]. }
    assert (HP0 : Forall (fun t => t <= max_value) [1; 2; 4])
      by (repeat (constructor; [lia|]); constructor).
    exact (proj1 (tribonacci_loop_preserves _ max_value Hstep _ [1; 2; 4] _
                    ltac:(cbn; lia) HP0
                    (generate_tribonacci_loop max_value ltac:(lia)))).
  - intros Hsmall.
    pose proof (generate_tribonacci_loop max_value ltac:(lia)) as Hloop.
    rewrite tribonacci_loop_S in Hloop.
    change (getitem [1; 2; 4] (-1)) with (@Ok Z 4) in Hloop.
    cbn [obind] in Hloop.
    destruct (Z.ltb_spec 4 max_value) as [Hlt|_]; [lia|].
    now injection Hloop as <-.
Qed.

(** X2. From threshold 4 on, no term exceeds the threshold; for the
    thresholds 1, 2 and 3 the result is the seed, whose last terms do. *)
Theorem generate_tribonacci_bounded (max_value : Z) :
  (4 <= max_value -> Forall (fun t => t <= max_value)
                       (generate_tribonacci max_value)) /\
  (1 <= max_value <= 4 -> generate_tribonacci max_value = [1; 2; 4]).
Proof. apply generate_tribonacci_le. Qed.

Lemma generate_tribonacci_bounded_witness :
  Forall (fun t => t <= 100) (generate_tribonacci 100) /\
  generate_tribonacci 2 = [1; 2; 4].
Proof.
  split.
  - exact (proj1 (generate_tribonacci_bounded 100) ltac:(lia)).
  - exact (proj2 (generate_tribonacci_bounded 2) ltac:(lia)).
Defined.

Lemma generate_tribonacci_exit (max_value : Z) :
  1 <= max_value ->
  exists pre a b c,
    generate_tribonacci max_value = pre ++ [a; b; c] /\
    max_value < a + b + c.
Proof.
  intros Hge.
  destruct (tribonacci_loop_preserves (fun _ => True) max_value
              (fun _ _ _ _ _ _ _ => I) _ [1; 2; 4] _
              ltac:(cbn; lia) I (generate_tribonacci_loop max_value Hge))
    as (_ & pre & a & b & c & Heq & Hexit).
  exists pre, a, b, c. split; [exact Heq|].
  destruct (generate_tribonacci_inv max_value Hge) as [(_ & Hpos & _) _].
  rewrite Heq, Forall_forall in Hpos.
  assert (0 < a)
    by (apply Hpos, elem_of_app; right; apply list_elem_of_here).
  assert (0 < b)
    by (apply Hpos, elem_of_app; right;
        apply list_elem_of_further, list_elem_of_here).
  lia.
Qed.

(** X3. The result cannot be extended: the sum of its last three terms
    exceeds the threshold. *)
Theorem generate_tribonacci_maximal (max_value : Z) :
  1 <= max_value ->
  exists pre a b c,
    generate_tribonacci max_value = pre ++ [a; b; c] /\
    max_value < a + b + c.
Proof. apply generate_tribonacci_exit. Qed.

Lemma generate_tribonacci_maximal_witness :
  1 <= 255 /\
  exists pre a b c,
    generate_tribonacci 255 = pre ++ [a; b; c] /\ 255 < a + b + c.
Proof.
  split; [lia|]. exact (generate_tribonacci_maximal 255 ltac:(lia)).
Defined.

End GeneratorMore.

(** * Further properties: the integer codec *)

Section CodecMore.

Lemma weight_fold_dotc (tribonacci_seq : list Z) (digits : str) :
  forall (k : nat) (acc : Z),
    fold_left (weight_step tribonacci_seq)
      (combine (seq k (length digits)) digits) acc
    = acc + dotc (drop k tribonacci_seq) digits.
Proof.
  induction digits as [|c cs IH]; intros k acc; cbn [length seq combine fold_left].
  - destruct (drop k tribonacci_seq); cbn; lia.
  - rewrite IH. unfold weight_step.
    destruct (Nat.ltb_spec k (length tribonacci_seq)) as [Hlt|Hge].
    + destruct (lookup_lt_is_Some_2 tribonacci_seq k Hlt) as [w Hw].
      rewrite (drop_S _ _ _ Hw). cbn [dotc].
      rewrite (nth_lookup_Some _ _ _ _ Hw).
      destruct (c =? ch "1"); cbn [andb]; lia.
    + rewrite andb_false_r.
      rewrite !drop_ge by lia. cbn. lia.
Qed.

(** [gzr_to_decimal] with a given sequence is the weighted sum of the
    digits; the two special cases agree with it. *)
Lemma gzr_to_decimal_dotc (gzr_bits : str) (tribonacci_seq : list Z) :
  gzr_to_decimal gzr_bits (Some tribonacci_seq) = dotc tribonacci_seq gzr_bits.
Proof.
  unfold gzr_to_decimal. destruct gzr_bits as [|c cs].
  - now destruct tribonacci_seq.
  - destruct (decide (c :: cs = [ch "0"])) as [Heq|_].
    + injection Heq as -> ->.
      destruct tribonacci_seq as [|w ws]; [reflexivity|].
      cbn. now destruct ws.
    + unfold enumerate. rewrite weight_fold_dotc, drop_0. lia.
Qed.

End CodecMore.

Section GreedyExact.

Lemma zsum_app (l k : list Z) : zsum (l ++ k) = zsum l + zsum k.
Proof. induction l as [|x l IH]; cbn; [reflexivity|]. unfold zsum in *. cbn. lia. Qed.

Lemma zsum_rev (l : list Z) : zsum (rev l) = zsum l.
Proof.
  induction l as [|x l IH]; [reflexivity|].
  cbn [rev]. rewrite zsum_app, IH. unfold zsum. cbn. lia.
Qed.

Lemma complete_snoc (l : list Z) (t : Z) :
  complete (l ++ [t]) <-> complete l /\ 0 < t <= 1 + zsum l.
Proof.
  unfold complete. rewrite rev_app_distr. cbn [rev app complete_desc].
  rewrite zsum_rev. tauto.
Qed.

Lemma complete_desc_pos (d : list Z) :
  complete_desc d -> Forall (fun t => 0 < t) d /\ 0 <= zsum d.
Proof.
  induction d as [|t d IH]; cbn [complete_desc].
  - intros _. split; [constructor|reflexivity].
  - intros [Ht Hd]. destruct (IH Hd) as [Hall Hsum].
    split; [constructor; [lia|exact Hall]|].
    unfold zsum in *. cbn. lia.
Qed.

Lemma complete_pos (l : list Z) :
  complete l -> Forall (fun t => 0 < t) l /\ 0 <= zsum l.
Proof.
  intros Hc. apply complete_desc_pos in Hc as [Hall Hsum].
  rewrite zsum_rev in Hsum. split; [|exact Hsum].
  apply List.Forall_rev in Hall. now rewrite rev_involutive in Hall.
Qed.

Lemma dotc_app (ws ws' : list Z) (ds ds' : str) :
  length ws = length ds ->
  dotc (ws ++ ws') (ds ++ ds') = dotc ws ds + dotc ws' ds'.
Proof.
  revert ds. induction ws as [|w ws IH]; intros [|c cs] Hlen;
    try discriminate; cbn [app dotc].
  - reflexivity.
  - rewrite IH by (cbn in Hlen; lia). lia.
Qed.

Lemma greedy_fold_acc (l : list Z) :
  forall (acc : list str) (r : Z),
    fold_left greedy_step l (acc, r)
    = (acc ++ (fold_left greedy_step l ([], r)).1,
       (fold_left greedy_step l ([], r)).2).
Proof.
  induction l as [|t l IH]; intros acc r; cbn [fold_left].
  - cbn. now rewrite app_nil_r.
  - assert (Hstep : forall a : list str,
               greedy_step (a, r) t
               = (a ++ [[if t <=? r then ch "1" else ch "0"]],
                  if t <=? r then r - t else r))
      by (intros a; unfold greedy_step; now destruct (t <=? r)).
    rewrite !Hstep, IH. symmetry. rewrite IH. cbn [fst snd app].
    now rewrite <- app_assoc.
Qed.

(** The digits of the greedy loop, weight by weight from the largest. *)
Lemma greedy_digits_snoc (n t : Z) (tribonacci_seq : list Z) :
  greedy_digits n (tribonacci_seq ++ [t])
  = greedy_digits (if t <=? n then n - t else n) tribonacci_seq
    ++ [if t <=? n then ch "1" else ch "0"].
Proof.
  unfold greedy_digits. rewrite rev_app_distr. cbn [rev app fold_left].
  assert (Hstep : greedy_step ([], n) t
                  = ([[if t <=? n then ch "1" else ch "0"]],
                     if t <=? n then n - t else n))
    by (unfold greedy_step; now destruct (t <=? n)).
  rewrite Hstep, greedy_fold_acc. cbn [fst].
  rewrite rev_app_distr, concat_app. reflexivity.
Qed.

(** The greedy loop decomposes [n] exactly when every weight is at most
    one more than the sum of the smaller weights and [n] is at most the
    sum of all weights. *)
Lemma greedy_exact (tribonacci_seq : list Z) :
  complete tribonacci_seq ->
  forall n, 0 <= n <= zsum tribonacci_seq ->
            dotc tribonacci_seq (greedy_digits n tribonacci_seq) = n.
Proof.
  induction tribonacci_seq as [|t l IH] using rev_ind; intros Hc n Hn.
  - cbn in Hn. cbn. lia.
  - apply complete_snoc in Hc as [Hl Ht].
    rewrite zsum_app in Hn. change (zsum [t]) with (t + 0) in Hn.
    rewrite greedy_digits_snoc.
    rewrite dotc_app
      by (symmetry; apply (proj2 (greedy_digits_bits _ l))).
    destruct (Z.leb_spec t n) as [Hle|Hgt].
    + rewrite (IH Hl) by lia.
      change (dotc [t] [ch "1"]) with (t + 0). lia.
    + rewrite (IH Hl) by lia.
      change (dotc [t] [ch "0"]) with (0 + 0). lia.
Qed.

Lemma generate_tribonacci_complete (max_value : Z) :
  1 <= max_value ->
  complete (generate_tribonacci max_value) /\
  max_value < zsum (generate_tribonacci max_value).
Proof.
  intros Hge.
  assert (Hstep : forall pre a b c,
             complete (pre ++ [a; b; c]) -> c < max_value ->
             c + b + a <= max_value ->
             complete ((pre ++ [a; b; c]) ++ [c + b + a])).
  { intros pre a b c Hc _ _. apply complete_snoc. split; [exact Hc|].
    destruct (complete_pos _ Hc) as [Hpos _].
    apply Forall_app in Hpos as [Hpre Habc].
    inversion Habc as [|? ? Ha Hbc]; subst.
    inversion Hbc as [|? ? Hb Hc']; subst.
    inversion Hc' as [|? ? Hc0 _]; subst.
    rewrite zsum_app. change (zsum [a; b; c]) with (a + (b + (c + 0))).
    assert (0 <= zsum pre).
    { clear -Hpre. induction Hpre as [|x l Hx _ IH]; [reflexivity|].
      change (zsum (x :: l)) with (x + zsum l). lia. }
    lia. }
  assert (H0 : complete [1; 2; 4]).
  { unfold complete, zsum. cbn. lia. }
  destruct (tribonacci_loop_preserves complete max_value Hstep _ [1; 2; 4] _
              ltac:(cbn; lia) H0 (generate_tribonacci_loop max_value Hge))
    as [Hc _].
  split; [exact Hc|].
  destruct (generate_tribonacci_exit max_value Hge)
    as (pre & a & b & c & Heq & Hmax).
  rewrite Heq in Hc |- *.
  destruct (complete_pos _ Hc) as [Hpos _].
  apply Forall_app in Hpos as [Hpre _].
  rewrite zsum_app. change (zsum [a; b; c]) with (a + (b + (c + 0))).
  assert (0 <= zsum pre).
  { clear -Hpre. induction Hpre as [|x l Hx _ IH]; [reflexivity|].
    change (zsum (x :: l)) with (x + zsum l). lia. }
  lia.
Qed.

End GreedyExact.

Section RoundTrip.

Lemma dotc_zeros (k : nat) :
  forall (ws : list Z) (r : str),
    dotc ws (repeat (ch "0") k ++ r) = dotc (drop k ws) r.
Proof.
  induction k as [|k IH]; intros ws r; [now rewrite drop_0|].
  destruct ws as [|w ws]; [reflexivity|].
  cbn [repeat app dotc drop]. rewrite IH. reflexivity.
Qed.

Lemma dotc_nonneg (ws : list Z) :
  Forall (fun t => 0 < t) ws -> forall ds, 0 <= dotc ws ds <= zsum ws.
Proof.
  induction 1 as [|w ws Hw _ IH]; intros ds; [now destruct ds|].
  change (zsum (w :: ws)) with (w + zsum ws).
  destruct ds as [|c cs]; cbn [dotc].
  - specialize (IH []). lia.
  - specialize (IH cs). destruct (c =? ch "1"); lia.
Qed.

(** Moving every digit to a smaller weight cannot raise the value, and
    lowers it when the first digit is '1' and its weight smaller. *)
Lemma dotc_le (r : str) :
  forall ws ws' : list Z,
    (length r <= length ws')%nat ->
    Forall (fun t => 0 < t) ws' ->
    (forall i x y, ws !! i = Some x -> ws' !! i = Some y -> x <= y) ->
    dotc ws r <= dotc ws' r.
Proof.
  induction r as [|c cs IH]; intros ws ws' Hlen Hpos Hle.
  - destruct ws, ws'; cbn; lia.
  - destruct ws' as [|w' ws']; [cbn in Hlen; lia|].
    inversion Hpos as [|? ? Hw' Hpos']; subst.
    destruct ws as [|w ws].
    + cbn [dotc]. pose proof (dotc_nonneg ws' Hpos' cs).
      destruct (c =? ch "1"); lia.
    + cbn [dotc].
      assert (w <= w') by (apply (Hle 0%nat); reflexivity).
      assert (dotc ws cs <= dotc ws' cs).
      { apply IH; [cbn in Hlen; lia|exact Hpos'|].
        intros i x y Hx Hy. apply (Hle (S i)); assumption. }
      destruct (c =? ch "1"); lia.
Qed.

Lemma dotc_lt (cs : str) (ws ws' : list Z) :
  (S (length cs) <= length ws')%nat ->
  Forall (fun t => 0 < t) ws' ->
  (forall i x y, ws !! i = Some x -> ws' !! i = Some y -> x < y) ->
  ws <> [] ->
  dotc ws (ch "1" :: cs) < dotc ws' (ch "1" :: cs).
Proof.
  intros Hlen Hpos Hlt Hne.
  destruct ws as [|w ws]; [contradiction|].
  destruct ws' as [|w' ws']; [cbn in Hlen; lia|].
  inversion Hpos as [|? ? Hw' Hpos']; subst.
  cbn [dotc]. rewrite Z.eqb_refl.
  assert (w < w') by (apply (Hlt 0%nat); reflexivity).
  assert (dotc ws cs <= dotc ws' cs); [|lia].
  apply dotc_le; [cbn in Hlen; lia|exact Hpos'|].
  intros i x y Hx Hy. apply Z.lt_le_incl. apply (Hlt (S i)); assumption.
Qed.

Lemma repeat_snoc {A} (x : A) (k : nat) :
  repeat x k ++ [x] = repeat x (S k).
Proof. induction k as [|k IH]; [reflexivity|]. cbn. now rewrite IH. Qed.

(** Padding the result of [decimal_to_gzr] back to the length of the
    sequence gives the digits of the greedy loop. *)
Lemma zfill_decimal_to_gzr (n : Z) (tribonacci_seq : list Z) :
  0 < n -> tribonacci_seq <> [] ->
  zfill (length tribonacci_seq) (decimal_to_gzr n (Some tribonacci_seq))
  = greedy_digits n tribonacci_seq.
Proof.
  intros Hn Hne. rewrite decimal_to_gzr_unfold by exact Hn.
  destruct (greedy_digits_bits n tribonacci_seq) as [Hb Hl].
  destruct (lstrip0_spec _ Hb) as (H1 & _ & H3).
  rewrite Hl in H3.
  destruct (lstrip [ch "0"] (greedy_digits n tribonacci_seq)) as [|c r].
  - rewrite zfill_bits by (constructor; [auto|constructor]).
    cbn [length] in *. rewrite app_nil_r, Nat.sub_0_r in H3.
    rewrite repeat_snoc, H3.
    destruct tribonacci_seq; [contradiction|].
    cbn [length]. f_equal. lia.
  - rewrite zfill_bits by exact H1. now rewrite <- H3.
Qed.

End RoundTrip.

Section CodecExtras.

Lemma generate_tribonacci_nonempty (max_value : Z) :
  1 <= max_value -> generate_tribonacci max_value <> [].
Proof.
  intros Hge Hnil.
  destruct (generate_tribonacci_inv max_value Hge) as [(Hlen & _) _].
  rewrite Hnil in Hlen. cbn in Hlen. lia.
Qed.

Lemma greedy_digits_value (max_value n : Z) :
  1 <= n <= max_value ->
  dotc (generate_tribonacci max_value)
    (greedy_digits n (generate_tribonacci max_value)) = n.
Proof.
  intros Hn.
  destruct (generate_tribonacci_complete max_value ltac:(lia)) as [Hc Hsum].
  apply greedy_exact; [exact Hc|lia].
Qed.

(** X4. With the sequence generated for a threshold [max_value >= n],
    padding [decimal_to_gzr(n, seq)] with zeros on the left to the length
    of the sequence (as [text_to_gzr] does with [zfill(9)]) gives a string
    that [gzr_to_decimal] maps back to [n]. *)
Theorem decimal_to_gzr_zfill_roundtrip (max_value n : Z) :
  1 <= n <= max_value ->
  let seq := generate_tribonacci max_value in
  gzr_to_decimal (zfill (length seq) (decimal_to_gzr n (Some seq))) (Some seq)
  = n.
Proof.
  intros Hn. cbn zeta.
  rewrite zfill_decimal_to_gzr
    by (try apply generate_tribonacci_nonempty; lia).
  rewrite gzr_to_decimal_dotc. now apply greedy_digits_value.
Qed.

Lemma decimal_to_gzr_zfill_roundtrip_witness :
  1 <= 2 <= 255 /\
  gzr_to_decimal
    (zfill (length (generate_tribonacci 255))
       (decimal_to_gzr 2 (Some (generate_tribonacci 255))))
    (Some (generate_tribonacci 255)) = 2.
Proof.
  split; [lia|]. exact (decimal_to_gzr_zfill_roundtrip 255 2 ltac:(lia)).
Defined.

Lemma roundtrip_some (max_value n : Z) :
  1 <= n <= max_value ->
  let seq := generate_tribonacci max_value in
  let v := gzr_to_decimal (decimal_to_gzr n (Some seq)) (Some seq) in
  v <= n /\
  (v = n <-> length (decimal_to_gzr n (Some seq)) = length seq).
Proof.
  intros Hn. cbn zeta.
  set (seq := generate_tribonacci max_value).
  pose proof (greedy_digits_value max_value n Hn) as Hval. fold seq in Hval.
  destruct (generate_tribonacci_inv max_value ltac:(lia))
    as [(Hlen3 & Hpos & Hinc) _]. fold seq in Hlen3, Hpos, Hinc.
  rewrite gzr_to_decimal_dotc, decimal_to_gzr_unfold by lia.
  destruct (greedy_digits_bits n seq) as [Hb Hl].
  destruct (lstrip0_spec _ Hb) as (_ & H2 & H3).
  rewrite Hl in H3.
  set (r := lstrip [ch "0"] (greedy_digits n seq)) in *.
  rewrite H3, dotc_zeros in Hval.
  destruct H2 as [Hr|[cs Hr]].
  { rewrite Hr in Hval. destruct (drop _ seq); cbn in Hval; lia. }
  rewrite Hr in *.
  assert (Hrlen : (length (ch "1" :: cs) <= length seq)%nat).
  { rewrite <- Hl. rewrite H3. rewrite length_app. lia. }
  destruct (decide (length (ch "1" :: cs) = length seq)) as [Heq|Hneq].
  - rewrite Heq, Nat.sub_diag, drop_0 in Hval.
    split; [lia|]. split; auto.
  - assert (Hlt : dotc seq (ch "1" :: cs)
                  < dotc (drop (length seq - length (ch "1" :: cs)) seq)
                      (ch "1" :: cs)).
    { apply dotc_lt.
      - rewrite length_drop. cbn [length] in *. lia.
      - now apply Forall_drop.
      - intros i x y Hx Hy. rewrite lookup_drop in Hy.
        eapply Hinc; eauto. cbn [length] in *. lia.
      - intros Hnil. rewrite Hnil in Hlen3. cbn in Hlen3. lia. }
    split; [lia|]. split; [lia|contradiction].
Qed.

(** X5. With the sequence generated for a threshold [max_value >= n], the
    direct round trip never gives more than [n], and gives [n] exactly
    when [decimal_to_gzr] returned as many digits as the sequence has
    weights, that is, when the strip removed nothing. *)
Theorem decimal_to_gzr_roundtrip_length (max_value n : Z) :
  1 <= n <= max_value ->
  let seq := generate_tribonacci max_value in
  let v := gzr_to_decimal (decimal_to_gzr n (Some seq)) (Some seq) in
  v <= n /\
  (v = n <-> length (decimal_to_gzr n (Some seq)) = length seq).
Proof. apply roundtrip_some. Qed.

Lemma decimal_to_gzr_roundtrip_length_witness :
  1 <= 65 <= 255 /\
  gzr_to_decimal (decimal_to_gzr 65 (Some (generate_tribonacci 255)))
    (Some (generate_tribonacci 255)) = 65.
Proof.
  split; [lia|].
  apply (proj2 (decimal_to_gzr_roundtrip_length 255 65 ltac:(lia))).
  reflexivity.
Defined.

Lemma dotc_extra (ws : list Z) :
  forall ds extra : str,
    (length ws <= length ds)%nat -> dotc ws (ds ++ extra) = dotc ws ds.
Proof.
  induction ws as [|w ws IH]; intros ds extra Hlen.
  - reflexivity.
  - destruct ds as [|c cs]; [cbn in Hlen; lia|].
    cbn [app dotc]. rewrite IH by (cbn in Hlen; lia). reflexivity.
Qed.

(** X6. Digits at positions beyond the sequence are ignored by
    [gzr_to_decimal]: they are no error and do not change the result. *)
Theorem gzr_to_decimal_ignores_extra (gzr_bits extra : str)
  (tribonacci_seq : list Z) :
  (length tribonacci_seq <= length gzr_bits)%nat ->
  gzr_to_decimal (gzr_bits ++ extra) (Some tribonacci_seq)
  = gzr_to_decimal gzr_bits (Some tribonacci_seq).
Proof.
  intros Hlen. rewrite !gzr_to_decimal_dotc. now apply dotc_extra.
Qed.

Lemma gzr_to_decimal_ignores_extra_witness :
  (length [1; 2; 4] <= length [ch "1"; ch "0"; ch "1"])%nat /\
  gzr_to_decimal ([ch "1"; ch "0"; ch "1"] ++ [ch "1"; ch "1"])
    (Some [1; 2; 4]) = 5.
Proof.
  split; [cbn; lia|].
  rewrite (gzr_to_decimal_ignores_extra [ch "1"; ch "0"; ch "1"]
             [ch "1"; ch "1"] [1; 2; 4] ltac:(cbn; lia)).
  reflexivity.
Defined.

(** X7. Whatever the digit string, the value decoded against positive
    weights lies between 0 and the sum of the weights. *)
Theorem gzr_to_decimal_bounds (gzr_bits : str) (tribonacci_seq : list Z) :
  Forall (fun t => 0 < t) tribonacci_seq ->
  0 <= gzr_to_decimal gzr_bits (Some tribonacci_seq) <= zsum tribonacci_seq.
Proof.
  intros Hpos. rewrite gzr_to_decimal_dotc. now apply dotc_nonneg.
Qed.

Lemma gzr_to_decimal_bounds_witness :
  Forall (fun t => 0 < t) (generate_tribonacci 255) /\
  0 <= gzr_to_decimal (repeat (ch "1") 20) (Some (generate_tribonacci 255))
    <= 325.
Proof.
  assert (H : Forall (fun t => 0 < t) (generate_tribonacci 255))
    by (repeat (constructor; [lia|]); constructor).
  split; [exact H|].
  exact (gzr_to_decimal_bounds (repeat (ch "1") 20) _ H).
Defined.

End CodecExtras.

(** * Further properties: the text codec *)

Section Saturation.

Lemma dotc_ones (ws : list Z) : dotc ws (repeat (ch "1") (length ws)) = zsum ws.
Proof.
  induction ws as [|w ws IH]; [reflexivity|].
  cbn [length repeat dotc]. rewrite Z.eqb_refl, IH. reflexivity.
Qed.

(** When [n] is at least the sum of the weights the greedy loop takes
    every weight. *)
Lemma greedy_saturates (tribonacci_seq : list Z) :
  Forall (fun t => 0 < t) tribonacci_seq ->
  forall n, zsum tribonacci_seq <= n ->
            greedy_digits n tribonacci_seq
            = repeat (ch "1") (length tribonacci_seq).
Proof.
  induction tribonacci_seq as [|t l IH] using rev_ind; intros Hpos n Hn;
    [reflexivity|].
  apply Forall_app in Hpos as [Hl Ht].
  inversion Ht as [|? ? Ht0 _]; subst.
  rewrite zsum_app in Hn. change (zsum [t]) with (t + 0) in Hn.
  assert (0 <= zsum l).
  { clear -Hl. induction Hl as [|x l Hx _ IH]; [reflexivity|].
    change (zsum (x :: l)) with (x + zsum l). lia. }
  rewrite greedy_digits_snoc.
  destruct (Z.leb_spec t n) as [_|Hgt]; [|lia].
  rewrite (IH Hl) by lia.
  rewrite length_app, Nat.add_comm. cbn [length Nat.add].
  apply repeat_snoc.
Qed.

Lemma generate_255_facts :
  complete (generate_tribonacci 255) /\
  Forall (fun t => 0 < t) (generate_tribonacci 255) /\
  zsum (generate_tribonacci 255) = 325.
Proof.
  split; [apply generate_tribonacci_complete; lia|].
  split; [|reflexivity].
  repeat (constructor; [lia|]). constructor.
Qed.

(** Decoding the slot of a code point [c >= 0] gives [min(c, 325)]. *)
Lemma slot_decode (c : Z) :
  0 <= c ->
  gzr_to_decimal (slot c) (Some (generate_tribonacci 255)) = Z.min c 325.
Proof.
  intros Hc. destruct generate_255_facts as (Hcomp & Hpos & Hsum).
  destruct (Z.eq_dec c 0) as [->|Hne]; [reflexivity|].
  unfold slot, ord.
  change 9%nat with (length (generate_tribonacci 255)).
  rewrite zfill_decimal_to_gzr by (try lia; discriminate).
  rewrite gzr_to_decimal_dotc.
  destruct (Z.le_gt_cases c 325) as [Hle|Hgt].
  - rewrite greedy_exact by (auto; lia). lia.
  - rewrite greedy_saturates, dotc_ones by (auto; lia). lia.
Qed.

Lemma gzr_to_text_body_first_any (c : Z) (rest chars : str) :
  0 <= c ->
  gzr_to_text_body (slot c ++ rest) (generate_tribonacci 255) 9 chars 0
  = Ok (chars ++ filter (fun x => x <> 0) [Z.min c 325]).
Proof.
  intros Hc. destruct (slot_spec c) as (_ & _ & Hlen & _).
  unfold gzr_to_text_body, slice.
  rewrite drop_0. replace (0 + 9 - 0)%nat with 9%nat by lia.
  rewrite take_app_length' by (symmetry; exact Hlen).
  rewrite Hlen, Nat.eqb_refl, slot_decode by exact Hc.
  destruct (Z.gtb_spec (Z.min c 325) 0) as [Hpos|Hzero].
  - unfold chr.
    destruct (Z.leb_spec 0 (Z.min c 325)); [|lia].
    destruct (Z.ltb_spec (Z.min c 325) 1114112); [|lia].
    cbn [andb obind].
    rewrite filter_cons_True by lia. reflexivity.
  - rewrite filter_cons_False by lia. cbn. now rewrite app_nil_r.
Qed.

Lemma gzr_to_text_slots_any (text : str) :
  Forall (fun c => 0 <= c) text ->
  forall chars : str,
    for_each (range_step (length (concat (map slot text))) 9)
      (gzr_to_text_body (concat (map slot text)) (generate_tribonacci 255) 9)
      chars
    = Ok (chars ++ filter (fun x => x <> 0) (map (Z.min 325) text)).
Proof.
  induction 1 as [|c text Hc Htext IH]; intros chars.
  - cbn. now rewrite app_nil_r.
  - cbn [map concat].
    destruct (slot_spec c) as (_ & _ & Hlen & _).
    rewrite length_app, Hlen, Nat.add_comm, range_step_slot.
    cbn [for_each].
    rewrite gzr_to_text_body_first_any by exact Hc. cbn [obind].
    rewrite for_each_shift by exact Hlen.
    rewrite IH, <- app_assoc.
    change (Z.min 325 c :: map (Z.min 325) text)
      with ([Z.min 325 c] ++ map (Z.min 325) text).
    rewrite filter_app, (Z.min_comm 325 c). reflexivity.
Qed.

(** X8. For a text of arbitrary code points (none negative) the round
    trip through [text_to_gzr] and [gzr_to_text] does not raise: code
    point 0 is dropped, code points up to 325 (the sum of the nine
    weights) come back unchanged, and every larger code point comes back
    as 325. *)
Theorem text_round_trip_any_code_point (text : str) :
  Forall (fun c => 0 <= c) text ->
  gzr_to_text (text_to_gzr text)
  = Ok (filter (fun c => c <> 0) (map (Z.min 325) text)).
Proof.
  intros Htext. unfold gzr_to_text. cbn zeta. rewrite text_to_gzr_slots.
  now rewrite (gzr_to_text_slots_any text Htext []).
Qed.

Lemma text_round_trip_any_code_point_witness :
  Forall (fun c => 0 <= c) [300; 0; 8364] /\
  gzr_to_text (text_to_gzr [300; 0; 8364]) = Ok [300; 325].
Proof.
  assert (H : Forall (fun c => 0 <= c) [300; 0; 8364])
    by (repeat (constructor; [lia|]); constructor).
  split; [exact H|]. exact (text_round_trip_any_code_point _ H).
Defined.

End Saturation.

Section Chunks.

(** The loop body of [gzr_to_text] never raises: the decoded value is at
    most 325, a valid code point. *)
Lemma gzr_to_text_body_pure (gzr_bits chars : str) (i : nat) :
  gzr_to_text_body gzr_bits (generate_tribonacci 255) 9 chars i
  = Ok (chars ++
        if (length (slice gzr_bits i (i + 9)) =? 9)%nat
        then chunk_chars (slice gzr_bits i (i + 9)) else []).
Proof.
  unfold gzr_to_text_body, chunk_chars. cbn zeta.
  destruct (length (slice gzr_bits i (i + 9)) =? 9)%nat;
    [|now rewrite app_nil_r].
  destruct generate_255_facts as (_ & Hpos & Hsum).
  pose proof (dotc_nonneg _ Hpos (slice gzr_bits i (i + 9))) as Hb.
  rewrite <- gzr_to_decimal_dotc, Hsum in Hb.
  destruct (Z.gtb_spec
              (gzr_to_decimal (slice gzr_bits i (i + 9))
                 (Some (generate_tribonacci 255))) 0);
    [|now rewrite app_nil_r].
  unfold chr.
  destruct (Z.leb_spec 0 (gzr_to_decimal (slice gzr_bits i (i + 9))
                            (Some (generate_tribonacci 255)))); [|lia].
  destruct (Z.ltb_spec (gzr_to_decimal (slice gzr_bits i (i + 9))
                          (Some (generate_tribonacci 255))) 1114112); [|lia].
  reflexivity.
Qed.

Lemma chunk_chars_range (chunk : str) :
  Forall (fun c => 1 <= c <= 325) (chunk_chars chunk) /\
  (length (chunk_chars chunk) <= 1)%nat.
Proof.
  unfold chunk_chars. cbn zeta.
  destruct generate_255_facts as (_ & Hpos & Hsum).
  pose proof (dotc_nonneg _ Hpos chunk) as Hb.
  rewrite <- gzr_to_decimal_dotc, Hsum in Hb.
  destruct (Z.gtb_spec (gzr_to_decimal chunk (Some (generate_tribonacci 255)))
              0).
  - split; [constructor; [lia|constructor]|cbn; lia].
  - split; [constructor|cbn; lia].
Qed.

Lemma gzr_to_text_short (gzr_bits : str) :
  (length gzr_bits < 9)%nat -> gzr_to_text gzr_bits = Ok [].
Proof.
  intros Hlen. unfold gzr_to_text. cbn zeta. unfold range_step.
  destruct gzr_bits as [|c cs]; [reflexivity|].
  replace ((length (c :: cs) + 9 - 1) / 9)%nat with 1%nat.
  - cbn [seq map for_each]. rewrite gzr_to_text_body_pure.
    unfold slice. rewrite drop_0, take_ge by lia.
    destruct (Nat.eqb_spec (length (c :: cs)) 9); [lia|reflexivity].
  - apply Nat.div_unique with (r := length cs); cbn [length] in *; lia.
Qed.

Lemma for_each_chars (gzr_bits : str) (idxs : list nat) :
  forall chars : str,
    for_each idxs (gzr_to_text_body gzr_bits (generate_tribonacci 255) 9) chars
    = let* r := for_each idxs
                  (gzr_to_text_body gzr_bits (generate_tribonacci 255) 9) []
      in Ok (chars ++ r).
Proof.
  induction idxs as [|i idxs IH]; intros chars; cbn [for_each obind].
  - now rewrite app_nil_r.
  - rewrite !gzr_to_text_body_pure. cbn [obind app].
    rewrite IH. symmetry. rewrite IH.
    destruct (for_each idxs _ []) as [r| |]; cbn [obind]; [|reflexivity..].
    now rewrite app_assoc.
Qed.

(** [gzr_to_text] treats the first nine digits and the rest separately. *)
Lemma gzr_to_text_chunk (sl rest : str) :
  length sl = 9%nat ->
  gzr_to_text (sl ++ rest)
  = let* r := gzr_to_text rest in Ok (chunk_chars sl ++ r).
Proof.
  intros Hlen. unfold gzr_to_text. cbn zeta.
  rewrite length_app, Hlen, Nat.add_comm, range_step_slot.
  cbn [for_each]. rewrite gzr_to_text_body_pure. cbn [obind app].
  unfold slice at 1 2. rewrite drop_0.
  replace (0 + 9 - 0)%nat with 9%nat by lia.
  rewrite take_app_length' by (symmetry; exact Hlen).
  rewrite Hlen, Nat.eqb_refl.
  rewrite for_each_shift by exact Hlen.
  apply for_each_chars.
Qed.

(** Induction on a digit string, nine digits at a time. *)
Lemma chunk_ind (P : str -> Prop) :
  (forall bits, (length bits < 9)%nat -> P bits) ->
  (forall sl rest, length sl = 9%nat -> P rest -> P (sl ++ rest)) ->
  forall bits, P bits.
Proof.
  intros Hshort Hchunk bits.
  remember (length bits) as n eqn:Hn. revert bits Hn.
  induction n as [n IH] using lt_wf_ind. intros bits Hn.
  destruct (Nat.lt_ge_cases (length bits) 9) as [Hlt|Hge];
    [now apply Hshort|].
  rewrite <- (take_drop 9 bits). apply Hchunk.
  - rewrite length_take. lia.
  - apply (IH (length (drop 9 bits))); [|reflexivity].
    rewrite length_drop. lia.
Qed.

(** [gzr_to_text] returns on every string; it gives at most one character
    per nine digits, each with a code point between 1 and 325. *)
Lemma gzr_to_text_total (gzr_bits : str) :
  exists text : str,
    gzr_to_text gzr_bits = Ok text /\
    (9 * length text <= length gzr_bits)%nat /\
    Forall (fun c => 1 <= c <= 325) text.
Proof.
  induction gzr_bits as [bits Hlen|sl rest Hlen IH] using chunk_ind.
  - exists []. split; [now apply gzr_to_text_short|].
    split; [cbn; lia|constructor].
  - destruct IH as (text & Heq & Hlen' & Hall).
    destruct (chunk_chars_range sl) as [Hr Hl].
    exists (chunk_chars sl ++ text).
    rewrite gzr_to_text_chunk, Heq by exact Hlen. cbn [obind].
    split; [reflexivity|]. split.
    + rewrite !length_app. lia.
    + apply Forall_app. now split.
Qed.

Lemma gzr_to_text_app (x y : str) :
  (length x mod 9 = 0)%nat ->
  gzr_to_text (x ++ y)
  = let* tx := gzr_to_text x in let* ty := gzr_to_text y in Ok (tx ++ ty).
Proof.
  induction x as [bits Hlen|sl rest Hlen IH] using chunk_ind; intros Hmod.
  - assert (length bits = 0%nat) as Hz.
    { rewrite Nat.mod_small in Hmod by lia. exact Hmod. }
    destruct bits; [|discriminate].
    cbn [app]. change (gzr_to_text []) with (@Ok str []). cbn [obind].
    now destruct (gzr_to_text y).
  - assert (Hrest : (length rest mod 9 = 0)%nat).
    { rewrite length_app, Hlen in Hmod.
      replace (9 + length rest)%nat with (length rest + 1 * 9)%nat in Hmod
        by lia.
      now rewrite Nat.Div0.mod_add in Hmod. }
    rewrite <- app_assoc.
    rewrite (gzr_to_text_chunk sl (rest ++ y) Hlen).
    rewrite (gzr_to_text_chunk sl rest Hlen).
    rewrite (IH Hrest).
    destruct (gzr_to_text rest) as [tr| |]; cbn [obind]; [|reflexivity..].
    destruct (gzr_to_text y) as [ty| |]; cbn [obind]; [|reflexivity..].
    now rewrite app_assoc.
Qed.

End Chunks.

Section TextExtras.

(** X9. [gzr_to_text] raises on no input: for every string it returns a
    text of at most one character per nine digits, each character with a
    code point between 1 and 325. *)
Theorem gzr_to_text_never_raises (gzr_bits : str) :
  exists text : str,
    gzr_to_text gzr_bits = Ok text /\
    (9 * length text <= length gzr_bits)%nat /\
    Forall (fun c => 1 <= c <= 325) text.
Proof. apply gzr_to_text_total. Qed.

(** X10. When the first string has a multiple of nine digits, decoding a
    concatenation gives the concatenation of the decoded texts. *)
Theorem gzr_to_text_concat (x y : str) :
  (length x mod 9 = 0)%nat ->
  exists tx ty : str,
    gzr_to_text x = Ok tx /\ gzr_to_text y = Ok ty /\
    gzr_to_text (x ++ y) = Ok (tx ++ ty).
Proof.
  intros Hmod.
  destruct (gzr_to_text_total x) as (tx & Hx & _).
  destruct (gzr_to_text_total y) as (ty & Hy & _).
  exists tx, ty. split; [exact Hx|]. split; [exact Hy|].
  now rewrite gzr_to_text_app, Hx, Hy.
Qed.

Lemma gzr_to_text_concat_witness :
  (length (text_to_gzr [72%Z]) mod 9 = 0)%nat /\
  gzr_to_text (text_to_gzr [72] ++ text_to_gzr [105]) = Ok [72; 105].
Proof.
  split; [reflexivity|].
  destruct (gzr_to_text_concat (text_to_gzr [72]) (text_to_gzr [105])
              eq_refl) as (tx & ty & Hx & Hy & Hxy).
  vm_compute in Hx, Hy. injection Hx as <-. injection Hy as <-.
  exact Hxy.
Defined.

(** X11. An incomplete chunk at the end (fewer than nine digits) is
    discarded silently. *)
Theorem gzr_to_text_trailing (x tail : str) :
  (length x mod 9 = 0)%nat -> (length tail < 9)%nat ->
  gzr_to_text (x ++ tail) = gzr_to_text x.
Proof.
  intros Hmod Htail.
  rewrite (gzr_to_text_app x tail Hmod), (gzr_to_text_short tail Htail).
  destruct (gzr_to_text x) as [tx| |]; cbn [obind]; [|reflexivity..].
  now rewrite app_nil_r.
Qed.

Lemma gzr_to_text_trailing_witness :
  (length (text_to_gzr [72%Z; 105%Z]) mod 9 = 0)%nat /\
  (length [ch "1"; ch "1"; ch "0"] < 9)%nat /\
  gzr_to_text (text_to_gzr [72; 105] ++ [ch "1"; ch "1"; ch "0"])
  = Ok [72; 105].
Proof.
  split; [reflexivity|]. split; [cbn; lia|].
  rewrite (gzr_to_text_trailing (text_to_gzr [72; 105])
             [ch "1"; ch "1"; ch "0"] eq_refl ltac:(cbn; lia)).
  reflexivity.
Defined.

(** X12. For every text, whatever its code points, [text_to_gzr] returns
    nine binary digits per character, and the encoding of a concatenation
    is the concatenation of the encodings. *)
Theorem text_to_gzr_any_text (text1 text2 : str) :
  length (text_to_gzr text1) = (9 * length text1)%nat /\
  is_bits (text_to_gzr text1) /\
  text_to_gzr (text1 ++ text2) = text_to_gzr text1 ++ text_to_gzr text2.
Proof.
  split; [rewrite text_to_gzr_slots; apply length_concat_slots|].
  split; [apply text_to_gzr_bits|].
  now rewrite !text_to_gzr_slots, map_app, concat_app.
Qed.

Lemma startswith_spec (sub : str) :
  forall s, startswith sub s = true -> exists post, s = sub ++ post.
Proof.
  induction sub as [|a sub IH]; intros s Hs; [now exists s|].
  destruct s as [|b s]; [discriminate|].
  cbn [startswith] in Hs. apply andb_prop in Hs as [Hab Hs].
  apply Z.eqb_eq in Hab as ->.
  destruct (IH s Hs) as [post ->]. now exists post.
Qed.

Lemma no_occurrence_count (sub s : str) :
  ~ (exists pre post, s = pre ++ sub ++ post) -> count_from sub s 0 = 0.
Proof.
  induction s as [|c s IH]; intros Hno; [reflexivity|].
  cbn [count_from].
  destruct (startswith sub (c :: s)) eqn:Hs.
  - exfalso. apply Hno. apply startswith_spec in Hs as [post Hpost].
    now exists [], post.
  - apply IH. intros (pre & post & ->). apply Hno.
    now exists (c :: pre), post.
Qed.

Lemma slot_run_free_spec (c : Z) :
  0 <= c <= 148 ->
  (~ exists pre post, slot c = pre ++ [ch "1"; ch "1"; ch "1"] ++ post) /\
  slot c !! 8%nat = Some (ch "0").
Proof.
  intros Hc.
  assert (Hb : slot_run_free c = true)
    by (apply (forallb_Z_upto slot_run_free 0 149);
        [vm_compute; reflexivity|lia]).
  unfold slot_run_free in Hb. apply andb_prop in Hb as [H1 H2].
  apply Z.eqb_eq in H1. apply bool_decide_eq_true in H2.
  split; [|exact H2].
  apply str_count_0_no_occurrence; [discriminate|exact H1].
Qed.

Lemma slots_run_free (text : str) :
  Forall (fun c => 0 <= c <= 148) text ->
  ~ exists pre post,
      concat (map slot text) = pre ++ [ch "1"; ch "1"; ch "1"] ++ post.
Proof.
  induction 1 as [|c text Hc _ IH]; intros (pre & post & Heq).
  - destruct pre; discriminate.
  - cbn [map concat] in Heq.
    destruct (slot_spec c) as (_ & _ & Hlen & _).
    destruct (slot_run_free_spec c Hc) as [Hno H8].
    destruct (Nat.le_gt_cases 9 (length pre)) as [Hge|Hlt].
    + apply IH. exists (drop 9 pre), post.
      rewrite <- (take_drop 9 pre), <- app_assoc in Heq.
      apply app_inj_1 in Heq as [_ Heq]; [exact Heq|].
      rewrite Hlen, length_take. lia.
    + destruct (Nat.le_gt_cases (length pre + 3) 9) as [Hin|Hcross].
      * apply Hno. exists pre, (take (9 - (length pre + 3)) post).
        apply (f_equal (take 9)) in Heq.
        rewrite take_app_length' in Heq by (symmetry; exact Hlen).
        rewrite Heq, take_app, take_ge by lia. f_equal.
        rewrite (take_app _ _ (9 - length pre)), take_ge by (cbn; lia).
        f_equal. cbn [length]. f_equal. lia.
      * apply (f_equal (fun l => l !! 8%nat)) in Heq.
        rewrite lookup_app_l, H8 in Heq by lia.
        rewrite lookup_app_r in Heq by lia.
        assert (Hk : (8 - length pre = 0 \/ 8 - length pre = 1)%nat) by lia.
        destruct Hk as [Hk|Hk]; rewrite Hk in Heq; discriminate.
Qed.

(** X13. For a text whose code points are all at most 148 (every ASCII
    text), the payload of [text_to_gzr] has no "111", also across the
    slots: [verify_no_111_pattern] returns [(True, 0)]. *)
Theorem text_to_gzr_no_111 (text : str) :
  Forall (fun c => 0 <= c <= 148) text ->
  verify_no_111_pattern (text_to_gzr text) = (true, 0).
Proof.
  intros Htext. unfold verify_no_111_pattern. cbn zeta.
  rewrite text_to_gzr_slots.
  assert (Hz : str_count (concat (map slot text)) [ch "1"; ch "1"; ch "1"]
               = 0)
    by (apply no_occurrence_count, slots_run_free, Htext).
  now rewrite Hz.
Qed.

Lemma text_to_gzr_no_111_witness :
  Forall (fun c => 0 <= c <= 148) [63; 3; 127] /\
  verify_no_111_pattern (text_to_gzr [63; 3; 127]) = (true, 0).
Proof.
  assert (H : Forall (fun c => 0 <= c <= 148) [63; 3; 127])
    by (repeat (constructor; [lia|]); constructor).
  split; [exact H|]. exact (text_to_gzr_no_111 _ H).
Defined.

End TextExtras.

(** * Further properties: the pixel channel *)

Section ExtractRange.

Variables (self0 : GZRDecoder) (h : gmap positive ndarray).
Variables (H W : nat) (d : list Z) (start n : nat).
Hypothesis Hstego :
  h !! dec_stego_image self0 = Some (mk_ndarray (H, W) d).
Hypothesis Hlen : length d = (H * W)%nat.

Let inv := extract_range_inv self0 h d start n.
Let done := extract_range_done self0 h d start n.

Lemma extract_range_pixel_step (i j : nat) (st : list str * Z)
  (w : world GZRDecoder) :
  (i < H)%nat -> (j < W)%nat ->
  inv (i * W + j)%nat st w ->
  loop_post (inv (S (i * W + j))) done
    (extract_pixel (dec_stego_image self0) (Z.of_nat start) (Z.of_nat n)
       i j st w).
Proof.
  intros Hi Hj. destruct st as [bits bit_index].
  intros (Hbi & Hbits & Hk & ->). cbn [fst snd] in Hbi, Hbits.
  subst bit_index bits.
  set (k := (i * W + j)%nat) in *.
  assert (HkHW : (k < H * W)%nat) by (subst k; nia).
  destruct (lookup_lt_is_Some_2 d k) as [p Hp]; [lia|].
  assert (Hij : (i <? H)%nat && (j <? W)%nat = true).
  { apply andb_true_intro. split; apply Nat.ltb_lt; lia. }
  unfold extract_pixel. rewrite !Z.geb_leb.
  destruct (Z.leb_spec (Z.of_nat start) (Z.of_nat k)) as [Hs|Hs];
    [destruct (Z.ltb_spec (Z.of_nat k) (Z.of_nat start + Z.of_nat n))
       as [Hlt|Hge]|]; cbn [andb].
  - (* the pixel is in the range *)
    unfold mbind at 1. unfold mbind at 1. unfold nd_getitem.
    cbn [arrays]. rewrite Hstego. cbn [shape data].
    rewrite Hij. fold k. rewrite Hp. unfold mret at 1.
    assert (Hbits' : lsb_strs (drop start (take k d))
                       ++ [str_of_lsb (Z.land p 1)]
                     = lsb_strs (drop start (take (S k) d))).
    { unfold lsb_strs. rewrite (take_S_r _ _ _ Hp).
      rewrite drop_app_le by (rewrite length_take; lia).
      now rewrite map_app. }
    rewrite Hbits'.
    destruct (Z.leb_spec (Z.of_nat start + Z.of_nat n) (Z.of_nat k + 1))
      as [Hret|Hgo].
    + unfold mret, loop_post, done, extract_range_done.
      split; [|reflexivity].
      rewrite take_drop_commute. replace (start + n)%nat with (S k) by lia.
      reflexivity.
    + unfold mret, loop_post, inv, extract_range_inv. cbn [fst snd].
      repeat split; lia.
  - (* past the range: only at the first pixel of an empty range *)
    assert (k = 0%nat /\ start = 0%nat /\ n = 0%nat) as (Hk0 & Hs0 & Hn0)
      by lia.
    unfold mbind, mret.
    destruct (Z.leb_spec (Z.of_nat start + Z.of_nat n) (Z.of_nat k + 1));
      [|lia].
    unfold loop_post, done, extract_range_done.
    rewrite Hk0, Hn0, !take_0, drop_nil. now split.
  - (* before the range *)
    unfold mbind, mret.
    assert (Hnil : forall m, (m <= start)%nat ->
                             lsb_strs (drop start (take m d)) = [])
      by (intros m Hm; rewrite drop_ge by (rewrite length_take; lia);
          reflexivity).
    destruct (Z.leb_spec (Z.of_nat start + Z.of_nat n) (Z.of_nat k + 1))
      as [Hret|Hgo].
    + unfold loop_post, done, extract_range_done.
      assert (n = 0%nat) as -> by lia.
      rewrite (Hnil k) by lia. now split.
    + unfold loop_post, inv, extract_range_inv. cbn [fst snd].
      rewrite (Hnil k), (Hnil (S k)) by lia.
      repeat split; lia.
Qed.

Lemma extract_range_row (i : nat) (st : list str * Z)
  (w : world GZRDecoder) :
  (i < H)%nat ->
  inv (i * W)%nat st w ->
  loop_post (inv (S i * W)%nat) done
    (for_range_ret (seq 0 W)
       (extract_pixel (dec_stego_image self0) (Z.of_nat start) (Z.of_nat n) i)
       st w).
Proof.
  intros Hi Hinv.
  replace (S i * W)%nat with (i * W + (0 + W))%nat by lia.
  apply (for_range_ret_inv (fun j => inv (i * W + j)%nat) done).
  - now rewrite Nat.add_0_r.
  - intros j st1 w1 Hj Hinv1.
    replace (i * W + S j)%nat with (S (i * W + j)) by lia.
    apply extract_range_pixel_step; [exact Hi|lia|exact Hinv1].
Qed.

Lemma extract_range_grid :
  loop_post (inv (H * W)%nat) done
    (for_range_ret (seq 0 H)
       (fun i st =>
          for_range_ret (seq 0 W)
            (extract_pixel (dec_stego_image self0) (Z.of_nat start)
               (Z.of_nat n) i) st)
       ([], 0) (mk_world self0 h)).
Proof.
  change (H * W)%nat with ((0 + H) * W)%nat.
  apply (for_range_ret_inv (fun i => inv (i * W)%nat) done).
  - unfold inv, extract_range_inv. cbn [fst snd].
    rewrite take_0, drop_nil. repeat split. now left.
  - intros i st w Hi Hinv. apply extract_range_row; [lia|exact Hinv].
Qed.

(** [_extract_bits(start, n)] reads the pixels of scan positions
    [start .. start + n - 1] that exist, raises nothing and writes
    nothing. *)
Lemma _extract_bits_scan :
  _extract_bits (Z.of_nat start) (Z.of_nat n) (mk_world self0 h)
  = (Ok (concat (lsb_strs (take n (drop start d)))), mk_world self0 h).
Proof.
  unfold _extract_bits.
  unfold mbind at 1. unfold get_self. cbn [self].
  unfold mbind at 1. unfold nd_shape. cbn [arrays]. rewrite Hstego.
  cbn [shape].
  pose proof extract_range_grid as Hgrid.
  unfold mbind.
  destruct (for_range_ret (seq 0 H)
              (fun i st =>
                 for_range_ret (seq 0 W)
                   (extract_pixel (dec_stego_image self0) (Z.of_nat start)
                      (Z.of_nat n) i) st)
              ([], 0) (mk_world self0 h))
    as [[[[bits bit_index]|r]| |] w'] eqn:Hloop; cbn [loop_post] in Hgrid;
    try contradiction.
  - destruct Hgrid as (_ & Hbits & Hk & ->). cbn [fst] in Hbits.
    subst bits. unfold mret. do 3 f_equal.
    rewrite take_ge by lia.
    rewrite take_ge by (rewrite length_drop; lia). reflexivity.
  - destruct Hgrid as (-> & ->). reflexivity.
Qed.

End ExtractRange.

Section Distortion.

Lemma new_pixel_upper (p c : Z) :
  0 <= p <= 255 -> c = ch "0" \/ c = ch "1" ->
  Z.lor (Z.land p 254) (c - ch "0") / 2 = p / 2.
Proof.
  intros Hp Hc.
  assert (Hb : lsb_keeps_upper p = true)
    by (apply (forallb_Z_upto lsb_keeps_upper 0 256);
        [vm_compute; reflexivity|lia]).
  unfold lsb_keeps_upper in Hb. apply andb_prop in Hb as [H0 H1].
  apply Z.eqb_eq in H0, H1.
  destruct Hc as [-> | ->]; assumption.
Qed.

Lemma lsb_embed_wf (shp : nat * nat) (pixels : list Z) (bits : str) :
  wf_array (mk_ndarray shp pixels) -> is_bits bits ->
  wf_array (mk_ndarray shp (lsb_embed pixels bits)).
Proof.
  intros [Hlen Hrange] Hbits. unfold wf_array. cbn [shape data] in *.
  split; [now rewrite length_lsb_embed|].
  apply Forall_lookup. intros i q Hq.
  rewrite lookup_lsb_embed in Hq.
  destruct (pixels !! i) as [p|] eqn:Hp; [|discriminate].
  assert (Hprange : 0 <= p <= 255)
    by (rewrite Forall_lookup in Hrange; eapply Hrange; eauto).
  destruct (bits !! i) as [c|] eqn:Hc; injection Hq as <-; [|exact Hprange].
  apply new_pixel_range; [exact Hprange|].
  unfold is_bits in Hbits. rewrite Forall_lookup in Hbits.
  eapply Hbits; eauto.
Qed.

(** X15. The array returned by [_embed_bits] is again a grid of 8-bit
    pixels of the same shape, and each of its pixels has the upper seven
    bits of the original pixel: it differs from it by at most 1. *)
Theorem embed_bits_distortion (w : world GZREncoder) (bits : str)
  (a : ndarray) :
  arrays w !! image (self w) = Some a ->
  wf_array a ->
  is_bits bits ->
  exists (stego : positive) (a' : ndarray),
    _embed_bits bits w
    = (Ok stego, mk_world (self w) (<[stego := a']> (arrays w))) /\
    shape a' = shape a /\ wf_array a' /\
    forall (k : nat) (p q : Z),
      data a !! k = Some p -> data a' !! k = Some q ->
      q / 2 = p / 2 /\ -1 <= q - p <= 1.
Proof.
  intros Ha Hwf Hbits.
  exists (fresh (dom (arrays w))),
    (mk_ndarray (shape a) (lsb_embed (data a) bits)).
  split; [now apply _embed_bits_spec|].
  split; [reflexivity|].
  split; [destruct a; now apply lsb_embed_wf|].
  intros k p q Hp Hq. cbn [data] in Hq.
  rewrite lookup_lsb_embed, Hp in Hq.
  destruct Hwf as [_ Hrange].
  assert (Hprange : 0 <= p <= 255)
    by (rewrite Forall_lookup in Hrange; eapply Hrange; eauto).
  assert (Hup : q / 2 = p / 2).
  { destruct (bits !! k) as [c|] eqn:Hc; injection Hq as <-; [|reflexivity].
    apply new_pixel_upper; [exact Hprange|].
    unfold is_bits in Hbits. rewrite Forall_lookup in Hbits.
    eapply Hbits; eauto. }
  split; [exact Hup|].
  pose proof (Z.div_mod p 2 ltac:(lia)).
  pose proof (Z.div_mod q 2 ltac:(lia)).
  pose proof (Z.mod_pos_bound p 2 ltac:(lia)).
  pose proof (Z.mod_pos_bound q 2 ltac:(lia)).
  lia.
Qed.

Lemma embed_bits_distortion_witness :
  arrays demo_world !! image (self demo_world) = Some demo_image /\
  wf_array demo_image /\
  is_bits demo_bits /\
  exists (stego : positive) (a' : ndarray),
    _embed_bits demo_bits demo_world
    = (Ok stego,
       mk_world (self demo_world) (<[stego := a']> (arrays demo_world))) /\
    wf_array a'.
Proof.
  assert (Ha : arrays demo_world !! image (self demo_world) = Some demo_image)
    by reflexivity.
  assert (Hwf : wf_array demo_image)
    by (split; [reflexivity|repeat constructor; cbn; lia]).
  assert (Hb : is_bits demo_bits)
    by (repeat (constructor; [auto|]); constructor).
  split; [exact Ha|]. split; [exact Hwf|]. split; [exact Hb|].
  destruct (embed_bits_distortion demo_world demo_bits demo_image Ha Hwf Hb)
    as (stego & a' & Heq & _ & Hwf' & _).
  exists stego, a'. split; [exact Heq|exact Hwf'].
Defined.

End Distortion.

Section Header.

Lemma bin_value_app (s t : str) :
  forall acc, bin_value acc (s ++ t)
              = let* v := bin_value acc s in bin_value v t.
Proof.
  induction s as [|c s IH]; intros acc; cbn [app bin_value obind];
    [reflexivity|].
  destruct (c =? ch "0"); [apply IH|].
  destruct (c =? ch "1"); [apply IH|reflexivity].
Qed.

Lemma bin_value_zeros (k : nat) : bin_value 0 (repeat (ch "0") k) = Ok 0.
Proof. induction k as [|k IH]; [reflexivity|exact IH]. Qed.

Lemma bin_value_digits (p : positive) :
  bin_value 0 (bin_digits p) = Ok (Zpos p).
Proof.
  induction p as [p IH|p IH|]; cbn [bin_digits]; [| |reflexivity];
    rewrite bin_value_app, IH; reflexivity.
Qed.

Lemma bin_value_bits (s : str) :
  is_bits s ->
  forall acc, 0 <= acc -> exists v, bin_value acc s = Ok v /\ 0 <= v.
Proof.
  induction 1 as [|c s Hc _ IH]; intros acc Hacc; [now exists acc|].
  destruct Hc as [-> | ->]; cbn [bin_value].
  - change (ch "0" =? ch "0") with true. cbn iota. apply IH. lia.
  - change (ch "1" =? ch "0") with false.
    change (ch "1" =? ch "1") with true. cbn iota. apply IH. lia.
Qed.

Lemma int_base2_bits (s : str) :
  is_bits s -> s <> [] -> exists v, int_base2 s = Ok v /\ 0 <= v.
Proof.
  intros Hs Hne. destruct s as [|c s]; [contradiction|].
  unfold int_base2. apply bin_value_bits; [exact Hs|lia].
Qed.

Lemma int_base2_format (n : Z) : 0 <= n -> int_base2 (format_032b n) = Ok n.
Proof.
  intros Hn. destruct n as [|p|p]; [reflexivity| |lia].
  assert (Hv : bin_value 0 (format_032b (Zpos p)) = Ok (Zpos p)).
  { cbn [format_032b].
    rewrite bin_value_app, bin_value_zeros. cbn [obind].
    apply bin_value_digits. }
  unfold int_base2.
  destruct (format_032b (Zpos p)) as [|c s] eqn:Hf; [discriminate Hv|].
  exact Hv.
Qed.

Lemma length_bin_digits_pos (p : positive) :
  (1 <= length (bin_digits p))%nat.
Proof.
  destruct p; cbn [bin_digits]; rewrite ?length_app; cbn [length]; lia.
Qed.

Lemma bin_digits_lower (p : positive) :
  2 ^ (Z.of_nat (length (bin_digits p)) - 1) <= Zpos p.
Proof.
  induction p as [p IH|p IH|]; cbn [bin_digits]; [| |reflexivity];
    pose proof (length_bin_digits_pos p);
    rewrite length_app; cbn [length];
    replace (Z.of_nat (length (bin_digits p) + 1) - 1)
      with (Z.succ (Z.of_nat (length (bin_digits p)) - 1)) by lia;
    rewrite Z.pow_succ_r by lia; lia.
Qed.

Lemma length_format_032b (n : Z) :
  0 <= n < 2 ^ 32 -> length (format_032b n) = 32%nat.
Proof.
  intros Hn. destruct n as [|p|p]; [reflexivity| |lia].
  cbn [format_032b]. rewrite length_app, repeat_length.
  enough ((length (bin_digits p) <= 32)%nat) by lia.
  destruct (Nat.le_gt_cases (length (bin_digits p)) 32) as [Hle|Hgt];
    [exact Hle|exfalso].
  pose proof (bin_digits_lower p) as Hlow.
  assert (2 ^ 32 <= 2 ^ (Z.of_nat (length (bin_digits p)) - 1))
    by (apply Z.pow_le_mono_r; lia).
  lia.
Qed.

Lemma concat_lsb_strs (pixels : list Z) :
  concat (lsb_strs pixels) = map lsb_char pixels.
Proof.
  induction pixels as [|p ps IH]; [reflexivity|].
  cbn [lsb_strs map concat]. unfold lsb_strs in IH. rewrite IH.
  unfold str_of_lsb, lsb_char. now destruct (Z.land p 1 =? 0).
Qed.

Lemma is_bits_lsb_chars (pixels : list Z) : is_bits (map lsb_char pixels).
Proof.
  induction pixels as [|p ps IH]; [constructor|].
  constructor; [|exact IH].
  unfold lsb_char. destruct (Z.land p 1 =? 0); auto.
Qed.

Lemma lsb_char_new_pixel (p c : Z) :
  c = ch "0" \/ c = ch "1" ->
  lsb_char (Z.lor (Z.land p 254) (c - ch "0")) = c.
Proof.
  intros Hc. pose proof (lsb_of_new_pixel p c Hc) as H.
  unfold str_of_lsb in H. unfold lsb_char.
  destruct (Z.land (Z.lor (Z.land p 254) (c - ch "0")) 1 =? 0);
    now injection H.
Qed.

(** The digits read from an embedded grid: the frame digit where there
    is one, the old least significant bit elsewhere. *)
Lemma lookup_read_embed (pixels : list Z) (frame : str) (i : nat) :
  is_bits frame ->
  map lsb_char (lsb_embed pixels frame) !! i =
  match pixels !! i with
  | Some p => Some match frame !! i with
                   | Some c => c
                   | None => lsb_char p
                   end
  | None => None
  end.
Proof.
  intros Hbits. rewrite list_lookup_fmap, lookup_lsb_embed.
  destruct (pixels !! i) as [p|]; [|reflexivity]. cbn.
  destruct (frame !! i) as [c|] eqn:Hc; [|reflexivity].
  f_equal. apply lsb_char_new_pixel.
  unfold is_bits in Hbits. rewrite Forall_lookup in Hbits.
  eapply Hbits; eauto.
Qed.

Lemma read_embed_range (pixels : list Z) (frame : str) (s n : nat) :
  is_bits frame ->
  (s + n <= length frame)%nat -> (length frame <= length pixels)%nat ->
  map lsb_char (take n (drop s (lsb_embed pixels frame)))
  = take n (drop s frame).
Proof.
  intros Hbits Hsn Hlen. apply list_eq. intros i.
  rewrite <- List.firstn_map, <- List.skipn_map.
  destruct (decide (i < n)%nat) as [Hi|Hi].
  - rewrite !lookup_take_lt, !lookup_drop by lia.
    rewrite lookup_read_embed by exact Hbits.
    destruct (lookup_lt_is_Some_2 pixels (s + i)) as [p ->]; [lia|].
    destruct (lookup_lt_is_Some_2 frame (s + i)) as [c ->]; [lia|].
    reflexivity.
  - now rewrite !lookup_take_ge by lia.
Qed.

Lemma read_embed_truncated (pixels : list Z) (frame : str) :
  is_bits frame -> (length pixels <= length frame)%nat ->
  map lsb_char (lsb_embed pixels frame) = take (length pixels) frame.
Proof.
  intros Hbits Hlen. apply list_eq. intros i.
  rewrite lookup_read_embed by exact Hbits.
  destruct (decide (i < length pixels)%nat) as [Hi|Hi].
  - rewrite lookup_take_lt by lia.
    destruct (lookup_lt_is_Some_2 pixels i) as [p ->]; [lia|].
    destruct (lookup_lt_is_Some_2 frame i) as [c ->]; [lia|].
    reflexivity.
  - rewrite lookup_take_ge by lia.
    now rewrite (lookup_ge_None_2 pixels) by lia.
Qed.

End Header.

Section Decode.

(** X14. On a grid of [H * W] pixels, [_extract_bits(start, n)] raises
    nothing and writes nothing; it returns the least significant bits of
    the pixels at scan positions [start .. start + n - 1] that exist, so
    fewer than [n] digits when the range passes the end of the grid. *)
Theorem extract_bits_range (self0 : GZRDecoder) (h : gmap positive ndarray)
  (a : ndarray) (start n : nat) :
  h !! dec_stego_image self0 = Some a ->
  length (data a) = ((shape a).1 * (shape a).2)%nat ->
  exists bits : str,
    _extract_bits (Z.of_nat start) (Z.of_nat n) (mk_world self0 h)
    = (Ok bits, mk_world self0 h) /\
    bits = map lsb_char (take n (drop start (data a))) /\
    length bits = Nat.min n (length (data a) - start).
Proof.
  intros Hstego Hlen. destruct a as [[H W] d]. cbn [shape data fst snd] in *.
  exists (map lsb_char (take n (drop start d))).
  split; [|split; [reflexivity|]].
  - rewrite (_extract_bits_scan self0 h H W d start n Hstego Hlen).
    now rewrite concat_lsb_strs.
  - now rewrite length_map, length_take, length_drop.
Qed.

Lemma extract_bits_range_witness :
  exists bits : str,
    _extract_bits 4 10
      (mk_world (decoder_of 1) {[ 1%positive := demo_image ]})
    = (Ok bits, mk_world (decoder_of 1) {[ 1%positive := demo_image ]}) /\
    bits = [ch "0"; ch "1"].
Proof.
  destruct (extract_bits_range (decoder_of 1) {[ 1%positive := demo_image ]}
              demo_image 4 10 (lookup_singleton_eq _ _) eq_refl)
    as (bits & Heq & Hbits & _).
  exists bits. split; [exact Heq|]. rewrite Hbits. reflexivity.
Defined.

Lemma decode_message_spec (self0 : GZRDecoder) (h : gmap positive ndarray)
  (H W : nat) (d : list Z) (v : Z) (text : str) :
  h !! dec_stego_image self0 = Some (mk_ndarray (H, W) d) ->
  length d = (H * W)%nat ->
  int_base2 (map lsb_char (take 32 d)) = Ok v ->
  0 <= v ->
  gzr_to_text (map lsb_char (take (Z.to_nat v) (drop 32 d))) = Ok text ->
  decode_message (mk_world self0 h)
  = (Ok text,
     mk_world
       (mk_GZRDecoder (dec_stego_image self0)
          (Some (map lsb_char (take (Z.to_nat v) (drop 32 d)))) (Some text))
       h).
Proof.
  intros Hstego Hlen Hint Hv Htext. unfold decode_message.
  unfold mbind at 1.
  change (_extract_bits 0 32) with (_extract_bits (Z.of_nat 0) (Z.of_nat 32)).
  rewrite (_extract_bits_scan self0 h H W d 0 32 Hstego Hlen).
  rewrite drop_0, concat_lsb_strs.
  unfold mbind at 1. unfold lift at 1. rewrite Hint.
  unfold mbind at 1.
  replace v with (Z.of_nat (Z.to_nat v)) at 1 by lia.
  change 32 with (Z.of_nat 32).
  rewrite (_extract_bits_scan self0 h H W d 32 (Z.to_nat v) Hstego Hlen).
  rewrite concat_lsb_strs.
  unfold mbind at 1. unfold get_self at 1. cbn [self].
  unfold mbind at 1. unfold set_self at 1. cbn [arrays].
  unfold mbind at 1. unfold lift at 1. rewrite Htext.
  unfold mbind at 1. unfold get_self at 1. cbn [self].
  unfold mbind at 1. unfold set_self at 1.
  cbn [arrays dec_stego_image extracted_bits]. reflexivity.
Qed.

(** X16. On a grid without pixels [decode_message] raises [ValueError]
    (the header string is empty); on every other grid it returns a text,
    whatever the pixels hold, and writes to no array. *)
Theorem decode_message_total (self0 : GZRDecoder)
  (h : gmap positive ndarray) (a : ndarray) :
  h !! dec_stego_image self0 = Some a ->
  length (data a) = ((shape a).1 * (shape a).2)%nat ->
  (data a = [] ->
   decode_message (mk_world self0 h) = (Raise ValueError, mk_world self0 h))
  /\
  (data a <> [] ->
   exists (bits text : str),
     decode_message (mk_world self0 h)
     = (Ok text,
        mk_world
          (mk_GZRDecoder (dec_stego_image self0) (Some bits) (Some text)) h)
     /\ gzr_to_text bits = Ok text).
Proof.
  intros Hstego Hlen. destruct a as [[H W] d]. cbn [shape data fst snd] in *.
  split.
  - intros ->. unfold decode_message. unfold mbind at 1.
    change (_extract_bits 0 32)
      with (_extract_bits (Z.of_nat 0) (Z.of_nat 32)).
    rewrite (_extract_bits_scan self0 h H W [] 0 32 Hstego Hlen).
    reflexivity.
  - intros Hne.
    destruct (int_base2_bits (map lsb_char (take 32 d)))
      as (v & Hint & Hv).
    { apply is_bits_lsb_chars. }
    { destruct d; [contradiction|discriminate]. }
    destruct (gzr_to_text_total
                (map lsb_char (take (Z.to_nat v) (drop 32 d))))
      as (text & Htext & _).
    exists (map lsb_char (take (Z.to_nat v) (drop 32 d))), text.
    split; [|exact Htext].
    now apply (decode_message_spec self0 h H W d v text).
Qed.

Lemma decode_message_total_witness :
  exists (bits text : str),
    decode_message (mk_world (decoder_of 1) {[ 1%positive := demo_image ]})
    = (Ok text,
       mk_world (mk_GZRDecoder 1 (Some bits) (Some text))
         {[ 1%positive := demo_image ]}).
Proof.
  destruct (decode_message_total (decoder_of 1)
              {[ 1%positive := demo_image ]} demo_image
              (lookup_singleton_eq _ _) eq_refl)
    as [_ Hok].
  destruct (Hok ltac:(discriminate)) as (bits & text & Heq & _).
  exists bits, text. exact Heq.
Defined.

End Decode.

Section EndToEnd.

Lemma encode_message_ok (w : world GZREncoder) (message : str)
  (a : ndarray) :
  arrays w !! image (self w) = Some a ->
  wf_array a ->
  len (text_to_gzr message) / 8 + 1
  <= Z.of_nat (shape a).1 * Z.of_nat (shape a).2 / 8 ->
  exists st : stats,
    encode_message message w =
    (Ok st,
     mk_world
       (mk_GZREncoder (image (self w)) (Some (fresh (dom (arrays w))))
          (Some (text_to_gzr message)))
       (<[fresh (dom (arrays w)) :=
            mk_ndarray (shape a) (lsb_embed (data a) (frame_of message))]>
          (arrays w))).
Proof.
  intros Ha Hwf Hcap.
  rewrite (encode_message_spec w message a Ha Hwf). cbn zeta.
  destruct (Z.gtb_spec (len (text_to_gzr message) / 8 + 1)
              (Z.of_nat (shape a).1 * Z.of_nat (shape a).2 / 8)); [lia|].
  eexists. reflexivity.
Qed.

Lemma frame_of_bits (message : str) : is_bits (frame_of message).
Proof.
  apply is_bits_app; [|apply text_to_gzr_bits].
  apply is_bits_format_032b. unfold len. lia.
Qed.

Lemma map_min_id (text : str) :
  Forall (fun c => 0 <= c <= 325) text -> map (Z.min 325) text = text.
Proof.
  induction 1 as [|c text Hc _ IH]; [reflexivity|].
  cbn [map]. rewrite IH. f_equal. lia.
Qed.

(** X17. When the image has room for the whole frame (32 header digits
    and nine digits per character) and the code points are at most 325,
    [encode_message] returns, and [decode_message] on the array it made
    returns the message without its characters of code point 0. *)
Theorem decode_message_encode_message (w : world GZREncoder)
  (message : str) (a : ndarray) :
  arrays w !! image (self w) = Some a ->
  wf_array a ->
  Forall (fun c => 0 <= c <= 325) message ->
  (32 + 9 * length message <= (shape a).1 * (shape a).2)%nat ->
  9 * Z.of_nat (length message) < 2 ^ 32 ->
  exists (st : stats) (w' : world GZREncoder) (stego : positive),
    encode_message message w = (Ok st, w') /\
    stego_image (self w') = Some stego /\
    (decode_message (mk_world (decoder_of stego) (arrays w'))).1
    = Ok (filter (fun c => c <> 0) message).
Proof.
  intros Ha Hwf Hmsg Hroom Hsmall.
  assert (Hpay : length (text_to_gzr message) = (9 * length message)%nat)
    by (rewrite text_to_gzr_slots; apply length_concat_slots).
  destruct a as [[H W] d]. cbn [shape data fst snd] in *.
  destruct (encode_message_ok w message (mk_ndarray (H, W) d) Ha Hwf)
    as [st Henc].
  { cbn [shape fst snd]. unfold len. rewrite Hpay.
    transitivity ((Z.of_nat (9 * length message) + 4 * 8) / 8).
    - rewrite Z.div_add by lia. lia.
    - apply Z.div_le_mono; lia. }
  cbn [shape data] in Henc.
  eexists st, _, (fresh (dom (arrays w))).
  split; [exact Henc|]. split; [reflexivity|].
  cbn [arrays].
  destruct Hwf as [Hlen _]. cbn [shape data fst snd] in Hlen.
  assert (Hhdr : length (format_032b (len (text_to_gzr message))) = 32%nat)
    by (apply length_format_032b; unfold len; rewrite Hpay; lia).
  assert (Hframe : length (frame_of message) = (32 + 9 * length message)%nat)
    by (unfold frame_of; rewrite length_app, Hhdr, Hpay; reflexivity).
  rewrite (decode_message_spec (decoder_of (fresh (dom (arrays w)))) _ H W
             (lsb_embed d (frame_of message))
             (len (text_to_gzr message))
             (filter (fun c => c <> 0) message)).
  - reflexivity.
  - apply lookup_insert_eq.
  - now rewrite length_lsb_embed.
  - rewrite <- (drop_0 (lsb_embed d (frame_of message))).
    rewrite read_embed_range
      by (try apply frame_of_bits; rewrite ?Hframe; lia).
    rewrite drop_0. unfold frame_of.
    rewrite take_app_length' by (symmetry; exact Hhdr).
    apply int_base2_format. unfold len. lia.
  - unfold len. lia.
  - unfold len. rewrite Nat2Z.id.
    rewrite read_embed_range
      by (try apply frame_of_bits; rewrite ?Hframe, ?Hpay; lia).
    unfold frame_of.
    rewrite drop_app_length' by (symmetry; exact Hhdr).
    rewrite take_ge by lia.
    unfold gzr_to_text. cbn zeta. rewrite text_to_gzr_slots.
    rewrite (gzr_to_text_slots_any message) by
      (eapply Forall_impl; [exact Hmsg|cbn; intros; lia]).
    now rewrite map_min_id.
Qed.

Lemma decode_message_encode_message_witness :
  exists (st : stats) (w' : world GZREncoder) (stego : positive),
    encode_message [72; 0; 105] tight_world = (Ok st, w') /\
    stego_image (self w') = Some stego /\
    (decode_message (mk_world (decoder_of stego) (arrays w'))).1
    = Ok [72; 105].
Proof.
  assert (Hwf : wf_array (mk_ndarray (8, 8)%nat (repeat 200 64)))
    by (split; [reflexivity|repeat constructor; cbn; lia]).
  assert (Hmsg : Forall (fun c => 0 <= c <= 325) [72; 0; 105])
    by (repeat (constructor; [lia|]); constructor).
  exact (decode_message_encode_message tight_world [72; 0; 105] _
           (lookup_singleton_eq _ _) Hwf Hmsg ltac:(cbn; lia)
           ltac:(cbn; lia)).
Defined.

(** X18. The capacity check of [encode_message] does not count the
    header: when it passes although the frame is longer than the image
    has pixels, [encode_message] still returns, and reading the frame
    back gives only its first [H * W] digits. *)
Theorem encode_message_truncates (w : world GZREncoder) (message : str)
  (a : ndarray) :
  arrays w !! image (self w) = Some a ->
  wf_array a ->
  len (text_to_gzr message) / 8 + 1
  <= Z.of_nat (shape a).1 * Z.of_nat (shape a).2 / 8 ->
  ((shape a).1 * (shape a).2 < length (frame_of message))%nat ->
  exists (st : stats) (w' : world GZREncoder) (stego : positive)
         (read : str),
    encode_message message w = (Ok st, w') /\
    stego_image (self w') = Some stego /\
    _extract_bits 0 (len (frame_of message))
      (mk_world (decoder_of stego) (arrays w'))
    = (Ok read, mk_world (decoder_of stego) (arrays w')) /\
    read = take ((shape a).1 * (shape a).2) (frame_of message) /\
    (length read < length (frame_of message))%nat.
Proof.
  intros Ha Hwf Hcap Hlong.
  destruct (encode_message_ok w message a Ha Hwf Hcap) as [st Henc].
  destruct a as [[H W] d]. cbn [shape data fst snd] in *.
  destruct Hwf as [Hlen _]. cbn [shape data fst snd] in Hlen.
  eexists st, _, (fresh (dom (arrays w))),
    (take (H * W) (frame_of message)).
  split; [exact Henc|]. split; [reflexivity|]. cbn [arrays].
  split; [|split; [reflexivity|rewrite length_take; lia]].
  change 0 with (Z.of_nat 0). unfold len.
  rewrite (_extract_bits_scan (decoder_of (fresh (dom (arrays w)))) _ H W
             (lsb_embed d (frame_of message)) 0 (length (frame_of message))
             (lookup_insert_eq _ _ _)
             ltac:(now rewrite length_lsb_embed)).
  rewrite drop_0, concat_lsb_strs.
  rewrite take_ge by (rewrite length_lsb_embed; lia).
  rewrite read_embed_truncated by (try apply frame_of_bits; lia).
  now rewrite Hlen.
Qed.

Lemma encode_message_truncates_witness :
  exists (st : stats) (w' : world GZREncoder) (stego : positive)
         (read : str),
    encode_message [72; 105; 33; 33] tight_world = (Ok st, w') /\
    stego_image (self w') = Some stego /\
    Nat.lt (length read) (length (frame_of [72; 105; 33; 33])).
Proof.
  assert (Hwf : wf_array (mk_ndarray (8, 8)%nat (repeat 200 64)))
    by (split; [reflexivity|repeat constructor; cbn; lia]).
  destruct (encode_message_truncates tight_world [72; 105; 33; 33] _
              (lookup_singleton_eq _ _) Hwf ltac:(vm_compute; discriminate)
              ltac:(vm_compute; lia))
    as (st & w' & stego & read & Henc & Hst & _ & _ & Hlt).
  exists st, w', stego, read. auto.
Defined.

End EndToEnd.

(** * Further properties: the generated sequence as a whole *)

Section Tribonacci.

Lemma trib_S (k : nat) : trib (S k) = (trib_triple k).1.2.
Proof.
  unfold trib. cbn [trib_triple]. now destruct (trib_triple k) as [[a b] c].
Qed.

Lemma trib_SS (k : nat) : trib (S (S k)) = (trib_triple k).2.
Proof.
  rewrite trib_S. cbn [trib_triple]. now destruct (trib_triple k) as [[a b] c].
Qed.

Lemma trib_triple_spec (k : nat) :
  trib_triple k = (trib k, trib (S k), trib (S (S k))).
Proof.
  rewrite trib_S, trib_SS. unfold trib.
  now destruct (trib_triple k) as [[a b] c].
Qed.

Lemma trib_rec (k : nat) :
  trib (S (S (S k))) = trib k + trib (S k) + trib (S (S k)).
Proof.
  pose proof (trib_triple_spec (S k)) as H1.
  pose proof (trib_triple_spec k) as H0.
  assert (E : trib_triple (S k)
              = let '(a, b, c) := trib_triple k in (b, c, a + b + c))
    by reflexivity.
  rewrite H0 in E. rewrite E in H1.
  injection H1 as H1. lia.
Qed.

Lemma trib_bounds (k : nat) :
  0 < trib k < trib (S k) /\ trib (S k) < trib (S (S k)) /\
  trib k <= 2 ^ Z.of_nat k /\ trib (S k) <= 2 * 2 ^ Z.of_nat k /\
  trib (S (S k)) <= 4 * 2 ^ Z.of_nat k.
Proof.
  induction k as [|k IH].
  - unfold trib. cbn. lia.
  - rewrite trib_rec. rewrite Nat2Z.inj_succ, Z.pow_succ_r by lia. lia.
Qed.

Lemma trib_mono (i j : nat) : (i <= j)%nat -> trib i <= trib j.
Proof.
  induction 1 as [|j _ IH]; [lia|].
  pose proof (trib_bounds j). lia.
Qed.

Lemma generate_tribonacci_lookup (max_value : Z) :
  1 <= max_value ->
  forall (i : nat) (x : Z),
    generate_tribonacci max_value !! i = Some x -> x = trib i.
Proof.
  intros Hge i. induction i as [i IH] using lt_wf_ind. intros x Hx.
  destruct (generate_tribonacci_inv max_value Hge) as [_ [k Hk]].
  destruct i as [|[|[|j]]].
  - rewrite Hk in Hx. now injection Hx as <-.
  - rewrite Hk in Hx. now injection Hx as <-.
  - rewrite Hk in Hx. now injection Hx as <-.
  - pose proof (lookup_lt_Some _ _ _ Hx) as Hlt.
    destruct (lookup_lt_is_Some_2 (generate_tribonacci max_value) j)
      as [a Ha]; [lia|].
    destruct (lookup_lt_is_Some_2 (generate_tribonacci max_value) (S j))
      as [b Hb]; [lia|].
    destruct (lookup_lt_is_Some_2 (generate_tribonacci max_value) (S (S j)))
      as [c Hc]; [lia|].
    rewrite (generate_tribonacci_rec max_value j a b c x); try assumption.
    + rewrite (IH j ltac:(lia) a Ha), (IH (S j) ltac:(lia) b Hb),
        (IH (S (S j)) ltac:(lia) c Hc).
      symmetry. apply trib_rec.
    + now replace (j + 1)%nat with (S j) by lia.
    + now replace (j + 2)%nat with (S (S j)) by lia.
    + now replace (j + 3)%nat with (S (S (S j))) by lia.
Qed.

(** The result of [generate_tribonacci] is the list of the Tribonacci
    numbers up to the first one above the threshold. *)
Lemma generate_tribonacci_trib (max_value : Z) :
  1 <= max_value ->
  let m := length (generate_tribonacci max_value) in
  generate_tribonacci max_value = map trib (seq 0 m) /\
  (3 <= m)%nat /\ max_value < trib m /\
  (4 <= max_value -> trib (m - 1) <= max_value).
Proof.
  intros Hge. cbn zeta.
  set (l := generate_tribonacci max_value).
  pose proof (generate_tribonacci_lookup max_value Hge) as Hlk. fold l in Hlk.
  destruct (generate_tribonacci_inv max_value Hge) as [(Hlen & _) _].
  fold l in Hlen.
  split; [|split; [exact Hlen|split]].
  - apply list_eq. intros i.
    destruct (decide (i < length l)%nat) as [Hi|Hi].
    + destruct (lookup_lt_is_Some_2 l i Hi) as [x Hx].
      rewrite Hx, (Hlk i x Hx).
      rewrite list_lookup_fmap, lookup_seq_lt by lia. reflexivity.
    + rewrite (lookup_ge_None_2 l) by lia.
      rewrite list_lookup_fmap, lookup_seq_ge by lia. reflexivity.
  - destruct (generate_tribonacci_exit max_value Hge)
      as (pre & a & b & c & Heq & Hmax). fold l in Heq.
    assert (Hl : length l = (length pre + 3)%nat)
      by (rewrite Heq, length_app; reflexivity).
    assert (Ha : l !! length pre = Some a).
    { rewrite Heq, lookup_app_r, Nat.sub_diag by lia. reflexivity. }
    assert (Hb : l !! S (length pre) = Some b).
    { rewrite Heq, lookup_app_r by lia.
      now replace (S (length pre) - length pre)%nat with 1%nat by lia. }
    assert (Hc : l !! S (S (length pre)) = Some c).
    { rewrite Heq, lookup_app_r by lia.
      now replace (S (S (length pre)) - length pre)%nat with 2%nat by lia. }
    apply Hlk in Ha, Hb, Hc. subst a b c.
    rewrite Hl. replace (length pre + 3)%nat with (S (S (S (length pre))))
      by lia.
    rewrite trib_rec. lia.
  - intros H4.
    destruct (lookup_lt_is_Some_2 l (length l - 1)) as [x Hx]; [lia|].
    pose proof (proj1 (generate_tribonacci_le max_value) H4) as Hall.
    fold l in Hall. rewrite Forall_lookup in Hall.
    rewrite <- (Hlk _ x Hx). eapply Hall; eauto.
Qed.

Lemma generate_tribonacci_length_mono (m1 m2 : Z) :
  1 <= m1 <= m2 ->
  (length (generate_tribonacci m1) <= length (generate_tribonacci m2))%nat.
Proof.
  intros Hm.
  destruct (generate_tribonacci_trib m1 ltac:(lia)) as (_ & H13 & _ & Hlast).
  destruct (generate_tribonacci_trib m2 ltac:(lia)) as (_ & H23 & Hup & _).
  cbn zeta in *.
  destruct (Nat.le_gt_cases (length (generate_tribonacci m1))
              (length (generate_tribonacci m2))) as [Hle|Hgt];
    [exact Hle|exfalso].
  destruct (Z.le_gt_cases 4 m1) as [H4|H4].
  - pose proof (trib_mono (length (generate_tribonacci m2))
                  (length (generate_tribonacci m1) - 1) ltac:(lia)).
    specialize (Hlast H4). lia.
  - rewrite (proj2 (generate_tribonacci_le m1)) in Hgt by lia.
    cbn [length] in Hgt. lia.
Qed.

(** X19. For a threshold of at least 1 the result is exactly the
    Tribonacci numbers [T(0) .. T(m - 1)], where [T(m)] is the first one
    above the threshold (and [m] is at least 3: the seed is kept). *)
Theorem generate_tribonacci_all_terms (max_value : Z) :
  1 <= max_value ->
  exists m : nat,
    generate_tribonacci max_value = map trib (seq 0 m) /\
    (3 <= m)%nat /\ max_value < trib m /\
    (4 <= max_value -> trib (m - 1) <= max_value).
Proof.
  intros Hge. exists (length (generate_tribonacci max_value)).
  now apply generate_tribonacci_trib.
Qed.

Lemma generate_tribonacci_all_terms_witness :
  1 <= 255 /\
  exists m : nat,
    generate_tribonacci 255 = map trib (seq 0 m) /\ 255 < trib m.
Proof.
  split; [lia|].
  destruct (generate_tribonacci_all_terms 255 ltac:(lia))
    as (m & Heq & _ & Hup & _).
  exists m. split; assumption.
Defined.

(** X20. Raising the threshold only appends terms. *)
Theorem generate_tribonacci_prefix (m1 m2 : Z) :
  1 <= m1 <= m2 ->
  generate_tribonacci m1 `prefix_of` generate_tribonacci m2.
Proof.
  intros Hm.
  pose proof (generate_tribonacci_length_mono m1 m2 Hm) as Hlen.
  destruct (generate_tribonacci_trib m1 ltac:(lia)) as (H1 & _).
  destruct (generate_tribonacci_trib m2 ltac:(lia)) as (H2 & _).
  cbn zeta in *. rewrite H1, H2.
  set (n1 := length (generate_tribonacci m1)) in *.
  set (n2 := length (generate_tribonacci m2)) in *.
  exists (map trib (seq n1 (n2 - n1))).
  rewrite <- map_app, <- seq_app. f_equal. f_equal. lia.
Qed.

Lemma generate_tribonacci_prefix_witness :
  1 <= 100 <= 255 /\
  generate_tribonacci 100 `prefix_of` generate_tribonacci 255.
Proof.
  split; [lia|]. exact (generate_tribonacci_prefix 100 255 ltac:(lia)).
Defined.

End Tribonacci.

Section DefaultSequence.

Lemma gzr_to_decimal_none (gzr_bits : str) :
  gzr_to_decimal gzr_bits None
  = dotc (generate_tribonacci (2 ^ Z.of_nat (length gzr_bits))) gzr_bits.
Proof.
  unfold gzr_to_decimal. destruct gzr_bits as [|c cs].
  - now destruct (generate_tribonacci _).
  - destruct (decide (c :: cs = [ch "0"])) as [Heq|_].
    + injection Heq as -> ->.
      destruct (generate_tribonacci _) as [|w ws]; [reflexivity|].
      cbn. now destruct ws.
    + unfold enumerate. rewrite weight_fold_dotc, drop_0. lia.
Qed.

Lemma dotc_take_weights (ds : str) :
  forall ws : list Z, dotc ws ds = dotc (take (length ds) ws) ds.
Proof.
  induction ds as [|c cs IH]; intros [|w ws]; cbn [length take dotc];
    try reflexivity.
  now rewrite <- IH.
Qed.

Lemma take_tribs (k m : nat) :
  (k <= m)%nat -> take k (map trib (seq 0 m)) = map trib (seq 0 k).
Proof.
  intros Hkm. rewrite List.firstn_map. f_equal.
  replace m with (k + (m - k))%nat by lia.
  rewrite seq_app, take_app_length'; [reflexivity|].
  now rewrite length_seq.
Qed.

(** The first weights of every generated sequence are the same numbers. *)
Lemma dotc_generated (max_value : Z) (ds : str) :
  1 <= max_value ->
  (length ds <= length (generate_tribonacci max_value))%nat ->
  dotc (generate_tribonacci max_value) ds
  = dotc (map trib (seq 0 (length ds))) ds.
Proof.
  intros Hge Hlen.
  destruct (generate_tribonacci_trib max_value Hge) as (Heq & _).
  cbn zeta in Heq.
  rewrite dotc_take_weights, Heq, take_tribs by exact Hlen.
  reflexivity.
Qed.

Lemma length_generate_pow (k : nat) :
  (k < length (generate_tribonacci (2 ^ Z.of_nat k)))%nat.
Proof.
  assert (Hpow : 1 <= 2 ^ Z.of_nat k)
    by (pose proof (Z.pow_pos_nonneg 2 (Z.of_nat k)); lia).
  destruct (generate_tribonacci_trib _ Hpow) as (_ & _ & Hup & _).
  cbn zeta in Hup.
  destruct (Nat.le_gt_cases (length (generate_tribonacci (2 ^ Z.of_nat k))) k)
    as [Hle|Hgt]; [exfalso|exact Hgt].
  pose proof (trib_mono _ _ Hle). pose proof (trib_bounds k). lia.
Qed.

(** With at most as many digits as the sequence generated for [n] has
    weights, the default sequence of [gzr_to_decimal] gives the same
    value. *)
Lemma gzr_to_decimal_default (n : Z) (gzr_bits : str) :
  1 <= n ->
  (length gzr_bits <= length (generate_tribonacci n))%nat ->
  gzr_to_decimal gzr_bits None
  = gzr_to_decimal gzr_bits (Some (generate_tribonacci n)).
Proof.
  intros Hn Hlen.
  rewrite gzr_to_decimal_none, gzr_to_decimal_dotc.
  rewrite (dotc_generated n) by assumption.
  apply dotc_generated.
  - pose proof (Z.pow_pos_nonneg 2 (Z.of_nat (length gzr_bits))). lia.
  - pose proof (length_generate_pow (length gzr_bits)). lia.
Qed.

(** X21. With both sequences left to their defaults, as in the
    docstrings, [gzr_to_decimal(decimal_to_gzr(n))] is at most [n] for
    every [n >= 1], and it is [n] exactly when [decimal_to_gzr(n)] has as
    many digits as [generate_tribonacci(n)] has terms, that is, when the
    strip removed nothing. *)
Theorem decimal_to_gzr_default_roundtrip (n : Z) :
  1 <= n ->
  let v := gzr_to_decimal (decimal_to_gzr n None) None in
  v <= n /\
  (v = n <->
   length (decimal_to_gzr n None) = length (generate_tribonacci n)).
Proof.
  intros Hn. cbn zeta.
  assert (Heq : decimal_to_gzr n None
                = decimal_to_gzr n (Some (generate_tribonacci n)))
    by reflexivity.
  destruct (decimal_to_gzr_shape n (Some (generate_tribonacci n)))
    as (_ & _ & Hlen).
  cbn zeta in Hlen. cbn [seq_of] in Hlen.
  destruct (generate_tribonacci_inv n Hn) as [(H3 & _) _].
  rewrite Heq, (gzr_to_decimal_default n) by lia.
  apply (roundtrip_some n n). lia.
Qed.

Lemma decimal_to_gzr_default_roundtrip_witness :
  1 <= 65 /\ gzr_to_decimal (decimal_to_gzr 65 None) None = 65.
Proof.
  split; [lia|].
  apply (proj2 (decimal_to_gzr_default_roundtrip 65 ltac:(lia))).
  reflexivity.
Defined.

End DefaultSequence.

(** * Further properties: statistics *)

Section Statistics.

Lemma length_binary (message : str) :
  Forall (fun c => 0 <= c <= 255) message ->
  length (concat (map (fun c => format_08b (ord c)) message))
  = (8 * length message)%nat.
Proof.
  induction 1 as [|c text Hc _ IH]; [reflexivity|].
  cbn [map concat length]. rewrite length_app, IH.
  assert (Hb : byte_width_8 c = true)
    by (apply (forallb_Z_upto byte_width_8 0 256);
        [vm_compute; reflexivity|lia]).
  unfold byte_width_8 in Hb. apply Nat.eqb_eq in Hb.
  unfold ord. rewrite Hb. lia.
Qed.

(** X22. For a message over code points [[0, 255]],
    [compare_with_binary] reports nine bits per character for GZR, eight
    for binary, and a difference of one bit per character. *)
Theorem compare_with_binary_bits (message : str) :
  Forall (fun c => 0 <= c <= 255) message ->
  let r := compare_with_binary message in
  gzr_bits_count r = 9 * len message /\
  binary_bits_count r = 8 * len message /\
  difference_bits r = len message.
Proof.
  intros Hmsg. cbn zeta. unfold compare_with_binary.
  destruct (verify_no_111_pattern (text_to_gzr message)) as [gv g111].
  destruct (verify_no_111_pattern
              (concat (map (fun c => format_08b (ord c)) message)))
    as [bv b111].
  cbn [gzr_bits_count binary_bits_count difference_bits].
  unfold len.
  rewrite (length_binary message Hmsg), text_to_gzr_slots,
    length_concat_slots.
  lia.
Qed.

Lemma compare_with_binary_bits_witness :
  Forall (fun c => 0 <= c <= 255) [72; 105] /\
  difference_bits (compare_with_binary [72; 105]) = 2.
Proof.
  assert (H : Forall (fun c => 0 <= c <= 255) [72; 105])
    by (repeat (constructor; [lia|]); constructor).
  split; [exact H|].
  exact (proj2 (proj2 (compare_with_binary_bits [72; 105] H))).
Defined.

(** X23. When the capacity check passes, the statistics returned by
    [encode_message] give the message length and nine times that for the
    encoded bits; for a message of code points up to 148 (every ASCII
    message) they report [valid_gzr = True] and no "111". *)
Theorem encode_message_stats (w : world GZREncoder) (message : str)
  (a : ndarray) :
  arrays w !! image (self w) = Some a ->
  wf_array a ->
  len (text_to_gzr message) / 8 + 1
  <= Z.of_nat (shape a).1 * Z.of_nat (shape a).2 / 8 ->
  exists (st : stats) (w' : world GZREncoder),
    encode_message message w = (Ok st, w') /\
    message_length st = len message /\
    stats_encoded_bits st = 9 * len message /\
    (Forall (fun c => 0 <= c <= 148) message ->
     valid_gzr st = true /\ pattern_111_count st = 0).
Proof.
  intros Ha Hwf Hcap.
  rewrite (encode_message_spec w message a Ha Hwf). cbn zeta.
  destruct (Z.gtb_spec (len (text_to_gzr message) / 8 + 1)
              (Z.of_nat (shape a).1 * Z.of_nat (shape a).2 / 8)); [lia|].
  eexists _, _. split; [reflexivity|].
  cbn [message_length stats_encoded_bits valid_gzr pattern_111_count].
  split; [reflexivity|]. split.
  - unfold len. rewrite text_to_gzr_slots, length_concat_slots. lia.
  - intros Hascii.
    assert (Hz : str_count (text_to_gzr message) [ch "1"; ch "1"; ch "1"]
                 = 0).
    { rewrite text_to_gzr_slots.
      apply no_occurrence_count, slots_run_free, Hascii. }
    unfold verify_no_111_pattern. cbn zeta. rewrite Hz. now split.
Qed.

Lemma encode_message_stats_witness :
  exists (st : stats) (w' : world GZREncoder),
    encode_message [72; 105] tight_world = (Ok st, w') /\
    stats_encoded_bits st = 18 /\ valid_gzr st = true.
Proof.
  assert (Hwf : wf_array (mk_ndarray (8, 8)%nat (repeat 200 64)))
    by (split; [reflexivity|repeat constructor; cbn; lia]).
  destruct (encode_message_stats tight_world [72; 105] _
              (lookup_singleton_eq _ _) Hwf ltac:(vm_compute; discriminate))
    as (st & w' & Henc & _ & Hbits & Hvalid).
  exists st, w'. split; [exact Henc|]. split; [exact Hbits|].
  apply Hvalid. repeat (constructor; [lia|]). constructor.
Defined.

End Statistics.
